(** * sharenv: the environment server of [server.py]

    A shallow embedding of the request path of the sharenv server: the
    file store reader, the cache, the value selector, the alias formatter,
    the response serializer and the token check, followed by the properties
    proved about them.

    Python [str] values are modelled by [string]; a character is a code
    point below 256.  Python dictionaries used as maps are [gmap]s.  A time
    is a rational number of seconds.  The module level names of the cache
    are written without their leading underscore. *)

From Stdlib Require Import QArith Ascii.
From stdpp Require Import gmap strings list sorting.

Local Open Scope char_scope.

(** ** Characters the server treats specially *)

(** The double quote, code point 34. *)
Definition dquote : ascii := "034".
(** The single quote. *)
Definition squote : ascii := "'".
Definition backslash : ascii := "\".
Definition dollar : ascii := "$".
(** The line feed, code point 10, and the carriage return, code point 13. *)
Definition LF : ascii := "010".
Definition CR : ascii := "013".

(** A one character string. *)
Definition chr (c : ascii) : string := String c EmptyString.

(** [str.isspace] on one character, for the code points below 256. *)
Definition isspace (c : ascii) : bool :=
  match c with
  | "009" | "010" | "011" | "012" | "013"
  | "028" | "029" | "030" | "031" | " " | "133" | "160" => true
  | _ => false
  end.

Local Close Scope char_scope.

(** ** The [str] methods used by the server *)

(** Truth value of a string: a string is true when it is not empty. *)
Definition truthy (s : string) : bool :=
  match s with
  | EmptyString => false
  | String _ _ => true
  end.

(** [s.lstrip()] *)
Fixpoint lstrip (s : string) : string :=
  match s with
  | EmptyString => EmptyString
  | String c s' => if isspace c then lstrip s' else s
  end.

(** [s.rstrip()] *)
Fixpoint rstrip (s : string) : string :=
  match s with
  | EmptyString => EmptyString
  | String c s' =>
      match rstrip s' with
      | EmptyString => if isspace c then EmptyString else chr c
      | r => String c r
      end
  end.

(** [s.strip()] *)
Definition strip (s : string) : string := rstrip (lstrip s).

(** [s.startswith(p)] *)
Definition startswith (s p : string) : bool := String.prefix p s.

(** [s.endswith(p)]: [s] is [p], or the tail of [s] ends with [p]. *)
Fixpoint endswith (s p : string) : bool :=
  if decide (s = p) then true
  else match s with
       | EmptyString => false
       | String _ s' => endswith s' p
       end.

(** [s.replace(old, new)]: the occurrences of [old] are found from left to
    right and do not overlap.  [skip] counts the characters of a matched
    occurrence that are still to be dropped.  For an empty [old] Python puts
    [new] before every character and at the end. *)
Fixpoint replace_from (old new : string) (skip : nat) (s : string) : string :=
  match s with
  | EmptyString =>
      match old with
      | EmptyString => new
      | String _ _ => EmptyString
      end
  | String c s' =>
      match skip with
      | S k => replace_from old new k s'
      | O =>
          if String.prefix old s then
            match old with
            | EmptyString => new +:+ String c (replace_from old new 0 s')
            | String _ old' => new +:+ replace_from old new (String.length old') s'
            end
          else String c (replace_from old new 0 s')
      end
  end.

Definition replace (s old new : string) : string := replace_from old new 0 s.

(** [sep in s] together with [s.split(sep, 1)] for a one character [sep]:
    [None] when [sep] does not occur in [s], otherwise the text before the
    first occurrence and the text after it. *)
Fixpoint split_once (sep : ascii) (s : string) : option (string * string) :=
  match s with
  | EmptyString => None
  | String c s' =>
      if decide (c = sep) then Some (EmptyString, s')
      else match split_once sep s' with
           | Some (before, after) => Some (String c before, after)
           | None => None
           end
  end.

(** [c in s] for one character. *)
Fixpoint in_str (c : ascii) (s : string) : bool :=
  match s with
  | EmptyString => false
  | String a s' => if decide (a = c) then true else in_str c s'
  end.

(** [s.rfind(c)] for one character; [None] stands for -1. *)
Fixpoint rfind (c : ascii) (s : string) : option nat :=
  match s with
  | EmptyString => None
  | String a s' =>
      match rfind c s' with
      | Some i => Some (S i)
      | None => if decide (a = c) then Some 0 else None
      end
  end.

(** [sep.join(l)] *)
Definition join (sep : string) (l : list string) : string := String.concat sep l.

(** [f.readlines()] of a text file opened with the default universal
    newlines: a line ends at a line feed, at a carriage return or at
    a carriage return followed by a line feed, and each of them is read as
    one line feed; the last line may have no end. *)
Fixpoint readlines (text : string) : list string :=
  match text with
  | EmptyString => []
  | String c rest =>
      if decide (c = LF) then chr LF :: readlines rest
      else if decide (c = CR) then
        match rest with
        | String c' rest' =>
            if decide (c' = LF) then chr LF :: readlines rest'
            else chr LF :: readlines rest
        | EmptyString => [chr LF]
        end
      else match readlines rest with
           | [] => [chr c]
           | l :: ls => String c l :: ls
           end
  end.

(** The comprehension [[line.strip() for line in lines if line.strip()]]. *)
Definition nonblank_lines (lines : list string) : list string :=
  strip <$> filter (λ line, truthy (strip line) = true) lines.

(** ** Response serializer: escaping (lines 396 to 399 of server.py) *)

(** [value.replace(backslash, 2 backslashes).replace(quote, backslash quote)
    .replace(dollar, backslash dollar)] *)
Definition escape_value (value : string) : string :=
  replace
    (replace
       (replace value (chr backslash) (chr backslash +:+ chr backslash))
       (chr dquote) (chr backslash +:+ chr dquote))
    (chr dollar) (chr backslash +:+ chr dollar).

(** [f'export {var_name}=QUOTE{escaped_value}QUOTE'] *)
Definition export_command (var_name value : string) : string :=
  "export " +:+ var_name +:+ "=" +:+ chr dquote +:+ escape_value value +:+ chr dquote.

(** The escaping as the specification words it: one pass from left to right
    over the original value, each character escaped on its own. *)
Definition escape_char (c : ascii) : string :=
  if decide (c = backslash) then chr backslash +:+ chr backslash
  else if decide (c = dquote) then chr backslash +:+ chr dquote
  else if decide (c = dollar) then chr backslash +:+ chr dollar
  else chr c.

Fixpoint escape_single_pass (value : string) : string :=
  match value with
  | EmptyString => EmptyString
  | String c rest => escape_char c +:+ escape_single_pass rest
  end.

(** ** Alias formatter: one line (lines 184 to 206 of server.py) *)

(** The body of the loop of [load_aliases] over the stripped, non empty
    lines of the aliases file. *)
Definition format_alias (line : string) : string :=
  if startswith line "alias " then line
  else
    match split_once "=" line with
    | Some (before, after) =>
        let alias_name := strip before in
        let alias_value := strip after in
        if (startswith alias_value (chr squote) && endswith alias_value (chr squote))
           || (startswith alias_value (chr dquote) && endswith alias_value (chr dquote))
        then "alias " +:+ alias_name +:+ "=" +:+ alias_value
        else "alias " +:+ alias_name +:+ "='" +:+ alias_value +:+ "'"
    | None => "alias " +:+ strip line
    end.

(** The loop itself, over the lines read from the file (lines 180 to 206). *)
Definition format_aliases (raw : list string) : list string :=
  format_alias <$> nonblank_lines raw.

(** ** Paths *)

(** [PurePath.name]: the text after the last slash. *)
Definition path_name (p : string) : string :=
  match rfind "/" p with
  | Some i => String.substring (S i) (String.length p - S i) p
  | None => p
  end.

(** [PurePath.stem]: the name without its last suffix; a dot that starts or
    ends the name starts no suffix. *)
Definition path_stem (p : string) : string :=
  let name := path_name p in
  match rfind "." name with
  | Some i =>
      if (0 <? i) && (i <? String.length name - 1)
      then String.substring 0 i name
      else name
  | None => name
  end.

(** ** Configuration (lines 22 to 25 of server.py) *)

Definition VARS_DIR : string := "vars".
Definition ALIASES_FILE : string := "aliases".
Definition CACHE_TTL : Q := 1.
Definition ROTATION_INTERVAL : Q := 60.

(** ** What the process is given

    The digest of [hashlib.md5], the UTF-8 decoder of text files, the
    resolution of a path to an absolute one (which depends on the working
    directory and on symbolic links), and the secret token fixed when the
    process starts. *)
Class Platform := {
  md5 : list Byte.byte → string;
  utf8_decode : list Byte.byte → option string;
  resolve : string → string;
  SECRET_TOKEN : string
}.

(** ** The file store *)

(** An entry of a directory: a directory, a regular file with its bytes, or
    a regular file that [open] refuses. *)
Inductive node :=
  | Directory
  | Regular (data : list Byte.byte)
  | Unreadable.

(** [Path.is_file()] *)
Definition is_file (n : node) : bool :=
  match n with
  | Directory => false
  | Regular _ | Unreadable => true
  end.

(** The two places the server reads: the variables directory, absent or
    present with its entries in the order [iterdir] yields them, and the
    aliases file. *)
Record filesystem := Filesystem {
  vars_dir : option (list (string * node));
  aliases_file : option node
}.

(** The files the server opens: [VARS_DIR / var_name] and [ALIASES_FILE]. *)
Inductive location :=
  | VarFile (var_name : string)
  | AliasesFile.

Fixpoint dir_lookup (name : string) (entries : list (string * node)) : option node :=
  match entries with
  | [] => None
  | (n, x) :: rest => if decide (n = name) then Some x else dir_lookup name rest
  end.

Definition lookup_file (fs : filesystem) (loc : location) : option node :=
  match loc with
  | VarFile var_name =>
      match vars_dir fs with
      | Some entries => dir_lookup var_name entries
      | None => None
      end
  | AliasesFile => aliases_file fs
  end.

(** ** The in-memory cache (lines 49 to 54 of server.py) *)

Record cache := Cache {
  values_cache : gmap string (list string);
  cache_timestamps : gmap string Q;
  file_hashes : gmap string (option string);
  aliases_cache : option (list string);
  aliases_hash : option string
}.

Definition empty_cache : cache := Cache ∅ ∅ ∅ None None.

(** ** The state of the process and what it did

    The journal records, newest first, the calls that touch the file system
    and the messages logged. *)
Inductive event :=
  | HashFile (loc : location)
  | ReadVarFile (var_name : string)
  | ReadAliasesFile
  | MakeVarsDir
  | LogError (loc : location)
  | LogWarning (message : string).

Record world := World {
  fs : filesystem;
  mem : cache;
  journal : list event
}.

Definition record (e : event) (w : world) : world :=
  World (fs w) (mem w) (e :: journal w).

Definition set_mem (c : cache) (w : world) : world :=
  World (fs w) c (journal w).

(** An exception that leaves a function. *)
Inductive exn := IndexError.

Inductive outcome (A : Type) :=
  | Return (a : A)
  | Raise (e : exn).
Arguments Return {A} a.
Arguments Raise {A} e.

Definition outcome_map {A B : Type} (f : A → B) (o : outcome A) : outcome B :=
  match o with
  | Return a => Return (f a)
  | Raise e => Raise e
  end.

(** The ordering of [sorted] on the items of the dictionary: tuples are
    compared component by component, strings by code points. *)
Definition item_le (a b : string * string) : Prop :=
  String.le a.1 b.1 ∧ (a.1 = b.1 → String.le a.2 b.2).

Global Instance item_le_dec : RelDecision item_le.
Proof. intros a b. unfold item_le. apply _. Defined.

(** A request, as far as [get_client_ip] reads it. *)
Record request := Request {
  x_forwarded_for : option string;
  x_real_ip : option string;
  remote_addr : option string
}.

Record response := Response {
  status : nat;
  mimetype : string;
  headers : list (string * string);
  body : string
}.

(** A file system event of the watcher, as far as [on_modified] reads it. *)
Record fs_event := FsEvent {
  is_directory : bool;
  src_path : string
}.

(** ** The operations of server.py *)

Section Server.
Context `{Platform}.

(** [get_file_hash] (lines 82 to 88): the digest of the bytes, [None] when
    the file cannot be opened. *)
Definition get_file_hash (n : option node) : option string :=
  match n with
  | Some (Regular data) => Some (md5 data)
  | Some Directory | Some Unreadable | None => None
  end.

(** The lines a text file yields to [readlines]; [None] when opening or
    decoding raises. *)
Definition read_text_lines (n : node) : option (list string) :=
  match n with
  | Regular data => readlines <$> utf8_decode data
  | Directory | Unreadable => None
  end.

(** [read_var_file] (lines 91 to 103).  The second component tells whether
    the error of the [except] branch was logged. *)
Definition read_var_file (fs : filesystem) (var_name : string)
    : option (list string) * bool :=
  match lookup_file fs (VarFile var_name) with
  | None => (None, false)
  | Some n =>
      match read_text_lines n with
      | Some raw =>
          let lines := nonblank_lines raw in
          (match lines with [] => None | _ :: _ => Some lines end, false)
      | None => (None, true)
      end
  end.

(** The three assignments of lines 126 to 128 (and 134 to 136). *)
Definition store_entry (var_name : string) (values : list string)
    (current_hash : option string) (current_time : Q) (c : cache) : cache :=
  Cache (<[var_name := values]> (values_cache c))
        (<[var_name := current_time]> (cache_timestamps c))
        (<[var_name := current_hash]> (file_hashes c))
        (aliases_cache c) (aliases_hash c).

(** The re-read of [get_var_value] (lines 123 to 128, and again 131 to
    136): read the file and, unless it yields nothing, store the values, the
    hash and the time. *)
Definition refresh (var_name : string) (current_time : Q)
    (current_hash : option string) (w : world) : option (list string) * world :=
  let w := record (ReadVarFile var_name) w in
  let '(values, failed) := read_var_file (fs w) var_name in
  let w := if failed then record (LogError (VarFile var_name)) w else w in
  match values with
  | None => (None, w)
  | Some values =>
      (Some values,
       set_mem (store_entry var_name values current_hash current_time (mem w)) w)
  end.

(** Lines 110 to 136 of [get_var_value]: the list of values the call
    selects from, [None] when the function returns [None] early. *)
Definition current_values (var_name : string) (current_time : Q) (w : world)
    : option (list string) * world :=
  let current_hash := get_file_hash (lookup_file (fs w) (VarFile var_name)) in
  let w := record (HashFile (VarFile var_name)) w in
  let c := mem w in
  match values_cache c !! var_name, file_hashes c !! var_name with
  | Some cached, Some stored_hash =>
      let cache_time := default 0%Q (cache_timestamps c !! var_name) in
      if decide (stored_hash = current_hash) then
        if Qlt_le_dec (current_time - cache_time) CACHE_TTL
        then (Some cached, w)
        else refresh var_name current_time current_hash w
      else refresh var_name current_time current_hash w
  | _, _ => refresh var_name current_time current_hash w
  end.

(** [random.choice(values)]: the entry at the index the generator draws;
    [draw] is the generator's raw output, brought below the length. *)
Definition random_choice (values : list string) (draw : nat) : option string :=
  values !! (draw mod length values).

(** Lines 138 to 144 of [get_var_value]; [values[0]] raises on an empty
    list. *)
Definition select_value (values : list string) (draw : nat) : outcome string :=
  let picked :=
    if 1 <? length values then random_choice values draw else values !! 0 in
  match picked with
  | Some selected_value => Return selected_value
  | None => Raise IndexError
  end.

(** [get_var_value] (lines 106 to 144).  [current_time] is what
    [time.time()] returns in this call and [draw] what the random generator
    yields in it. *)
Definition get_var_value (var_name : string) (current_time : Q) (draw : nat)
    (w : world) : outcome (option string) * world :=
  let '(values, w) := current_values var_name current_time w in
  match values with
  | None => (Return None, w)
  | Some values => (outcome_map Some (select_value values draw), w)
  end.

(** The loop of [load_all_vars] (lines 153 to 161).  The call for the
    [k]-th entry of the directory reads the time [clock k] and draws
    [rand k]. *)
Fixpoint load_vars_loop (entries : list (string * node)) (k : nat)
    (clock : nat → Q) (rand : nat → nat)
    (vars_dict : gmap string string) (w : world)
    : outcome (gmap string string) * world :=
  match entries with
  | [] => (Return vars_dict, w)
  | (name, n) :: rest =>
      if is_file n && negb (startswith name ".") then
        let var_name := name in
        match get_var_value var_name (clock k) (rand k) w with
        | (Return (Some value), w) =>
            load_vars_loop rest (S k) clock rand (<[var_name := value]> vars_dict) w
        | (Return None, w) => load_vars_loop rest (S k) clock rand vars_dict w
        | (Raise e, w) => (Raise e, w)
        end
      else load_vars_loop rest (S k) clock rand vars_dict w
  end.

(** [load_all_vars] (lines 147 to 161) *)
Definition load_all_vars (clock : nat → Q) (rand : nat → nat) (w : world)
    : outcome (gmap string string) * world :=
  match vars_dir (fs w) with
  | None =>
      (Return ∅,
       World (Filesystem (Some []) (aliases_file (fs w))) (mem w)
             (MakeVarsDir :: journal w))
  | Some entries => load_vars_loop entries 0 clock rand ∅ w
  end.

(** [load_aliases] (lines 164 to 215) *)
Definition load_aliases (w : world) : list string * world :=
  match lookup_file (fs w) AliasesFile with
  | None => ([], w)
  | Some n =>
      let current_hash := get_file_hash (Some n) in
      let w := record (HashFile AliasesFile) w in
      let c := mem w in
      let reload :=
        let w := record ReadAliasesFile w in
        match read_text_lines n with
        | Some raw =>
            let aliases := format_aliases raw in
            (aliases,
             set_mem (Cache (values_cache c) (cache_timestamps c) (file_hashes c)
                            (Some aliases) current_hash) w)
        | None => ([], record (LogError AliasesFile) w)
        end in
      match aliases_cache c with
      | Some cached =>
          if decide (aliases_hash c = current_hash) then (cached, w) else reload
      | None => reload
      end
  end.

(** [VarsFileHandler.on_modified] (lines 60 to 79) *)
Definition on_modified (ev : fs_event) (w : world) : world :=
  if is_directory ev then w
  else
    let event_path := resolve (src_path ev) in
    let vars_dir_path := resolve VARS_DIR in
    let aliases_file_path := resolve ALIASES_FILE in
    let c := mem w in
    if startswith event_path vars_dir_path then
      let var_name := path_stem event_path in
      set_mem (Cache (delete var_name (values_cache c)) (cache_timestamps c)
                     (delete var_name (file_hashes c))
                     (aliases_cache c) (aliases_hash c)) w
    else if decide (event_path = aliases_file_path) then
      set_mem (Cache (values_cache c) (cache_timestamps c) (file_hashes c)
                     None None) w
    else w.

(** A header that is present and not empty. *)
Definition header (h : option string) : option string :=
  match h with
  | Some s => if truthy s then Some s else None
  | None => None
  end.

(** [get_client_ip] (lines 218 to 229) *)
Definition get_client_ip (req : request) : string :=
  match header (x_forwarded_for req) with
  | Some forwarded =>
      strip (match split_once "," forwarded with
             | Some (first, _) => first
             | None => forwarded
             end)
  | None =>
      match header (x_real_ip req) with
      | Some ip => ip
      | None => default "unknown" (header (remote_addr req))
      end
  end.

(** [validate_token] (lines 232 to 237) *)
Definition validate_token (token : string) (req : request) (w : world)
    : bool * world :=
  if decide (token ≠ SECRET_TOKEN) then
    (false, record (LogWarning ("Invalid token attempt from " +:+ get_client_ip req)) w)
  else (true, w).

Definition warning_message : string :=
  "echo " +:+ chr dquote
  +:+ "Warning: Invalid sharenv key. Please check your SHARENV_ENDPOINT configuration."
  +:+ chr dquote.

(** Lines 394 to 406 of [get_env_vars]: the text of the response. *)
Definition response_text (vars_dict : gmap string string) (aliases : list string)
    : string :=
  let export_commands :=
    (λ item, export_command item.1 item.2)
      <$> merge_sort item_le (map_to_list vars_dict) in
  let all_commands := export_commands ++ aliases in
  join (chr LF) all_commands.

(** [get_env_vars] (lines 379 to 417).  A response built without a status
    has status 200. *)
Definition get_env_vars (token : string) (req : request)
    (clock : nat → Q) (rand : nat → nat) (w : world)
    : outcome response * world :=
  let '(valid, w) := validate_token token req w in
  if negb valid then
    (Return (Response 200 "text/plain" [] warning_message), w)
  else
    let '(loaded, w) := load_all_vars clock rand w in
    match loaded with
    | Raise e => (Raise e, w)
    | Return vars_dict =>
        let '(aliases, w) := load_aliases w in
        (Return (Response 200 "text/plain"
                   [("Content-Type", "text/plain; charset=utf-8")]
                   (response_text vars_dict aliases)), w)
    end.

End Server.

(** ** Notions used to state the properties *)


(** The test of lines 197 and 198 of server.py. *)
Definition quoted (v : string) : bool :=
  (startswith v (chr squote) && endswith v (chr squote))
  || (startswith v (chr dquote) && endswith v (chr dquote)).

(** A value between two single quotes or between two double quotes. *)
Definition wrapped_in_quotes (v : string) : Prop :=
  ∃ q inner, (q = squote ∨ q = dquote) ∧ v = String q (inner +:+ chr q).


(** An entry of the variables directory that [load_all_vars] keeps: a
    regular file whose name does not start with a dot. *)
Definition visible (entries : list (string * node)) (name : string) : Prop :=
  ∃ n, (name, n) ∈ entries ∧ is_file n = true ∧ startswith name "." = false.

Section Notions.
Context `{Platform}.

(** The condition of lines 115 to 118 of server.py: the name has cached
    values and a stored hash, the stored hash is the hash of the file now,
    and the entry is younger than the time to live.  An entry without a
    time is as old as the clock reads. *)
Definition entry_valid (c : cache) (var_name : string)
    (current_hash : option string) (current_time : Q) : Prop :=
  is_Some (values_cache c !! var_name)
  ∧ file_hashes c !! var_name = Some current_hash
  ∧ (current_time - default 0%Q (cache_timestamps c !! var_name) < CACHE_TTL)%Q.

(** The file of a variable is gone, or it is a text without a line that is
    not blank. *)
Definition yields_nothing (fs : filesystem) (var_name : string) : Prop :=
  lookup_file fs (VarFile var_name) = None
  ∨ ∃ data text, lookup_file fs (VarFile var_name) = Some (Regular data)
      ∧ utf8_decode data = Some text
      ∧ nonblank_lines (readlines text) = [].

(** The invariant of the cache: a cached list is not empty, and when a hash
    is stored with it, the list is what a file with that hash holds. *)
Definition cache_coherent (c : cache) : Prop :=
  ∀ var_name values, values_cache c !! var_name = Some values →
    values ≠ []
    ∧ ∀ stored_hash, file_hashes c !! var_name = Some stored_hash →
        ∃ data text, stored_hash = Some (md5 data)
          ∧ utf8_decode data = Some text
          ∧ nonblank_lines (readlines text) = values.

End Notions.

(** ** A platform and a file store to run the model on *)

Definition ascii_bytes (s : string) : list Byte.byte := String.list_byte_of_string s.

(** A decoder for files of ASCII text, on which it agrees with UTF-8; it
    refuses every other file. *)
Definition ascii_decode (data : list Byte.byte) : option string :=
  if forallb (λ b, Byte.to_nat b <? 128) data
  then Some (String.string_of_list_byte data)
  else None.

(** The digest is replaced by one that has no collisions: the bytes
    themselves. *)
Definition example_platform : Platform := {|
  md5 := String.string_of_list_byte;
  utf8_decode := ascii_decode;
  resolve := λ p, "/srv/sharenv/" +:+ p;
  SECRET_TOKEN := "0123456789abcdef"
|}.

(** The variables FOO, with the line one, and BAR, with the lines x and y,
    and the aliases file with the line ll=ls -la. *)
Definition example_fs : filesystem :=
  Filesystem
    (Some [("FOO", Regular (ascii_bytes ("one" +:+ chr LF)));
           ("BAR", Regular (ascii_bytes ("x" +:+ chr LF +:+ "y" +:+ chr LF)))])
    (Some (Regular (ascii_bytes ("ll=ls -la" +:+ chr LF)))).

Definition example_world : world := World example_fs empty_cache [].

Definition example_request : request := Request None None (Some "10.0.0.7").

(** A variables directory with the one file KEY, holding the line old. *)
Definition key_fs : filesystem :=
  Filesystem (Some [("KEY", Regular (ascii_bytes ("old" +:+ chr LF)))]) None.

(** The same directory after KEY was deleted. *)
Definition key_deleted_fs : filesystem := Filesystem (Some []) None.

(** A variables directory with the one file FOO.txt, holding the line one. *)
Definition suffixed_fs : filesystem :=
  Filesystem (Some [("FOO.txt", Regular (ascii_bytes ("one" +:+ chr LF)))]) None.

(** The world after a first call for KEY at time 0 and the deletion of its
    file. *)
Definition key_deleted_world : world :=
  World key_deleted_fs
        (mem (@get_var_value example_platform "KEY" 0 0
                (World key_fs empty_cache [])).2) [].

(** A variables directory with a hidden file and a subdirectory next to the
    file FOO. *)
Definition mixed_fs : filesystem :=
  Filesystem
    (Some [(".env", Regular (ascii_bytes ("secret" +:+ chr LF)));
           ("sub", Directory);
           ("FOO", Regular (ascii_bytes ("one" +:+ chr LF)))])
    None.

(** ** Notions for the rest of the server *)

(** A string on one line: it holds no line feed and no carriage return. *)
Definition one_line (s : string) : Prop :=
  in_str LF s = false ∧ in_str CR s = false.

Section MoreNotions.
Context `{Platform}.

(** The invariant of the alias cache: a cached list is what the formatter
    makes of a file with the stored hash. *)
Definition aliases_coherent (c : cache) : Prop :=
  ∀ cached, aliases_cache c = Some cached →
    ∃ data text, aliases_hash c = Some (md5 data)
      ∧ utf8_decode data = Some text
      ∧ format_aliases (readlines text) = cached.

(** The states of the server: it starts with an empty cache on any file
    store; it answers requests; the watcher reports events; and the files
    change under it. *)
Inductive reachable : world → Prop :=
  | reachable_start fs0 : reachable (World fs0 empty_cache [])
  | reachable_request token req clock rand w :
      reachable w → reachable (get_env_vars token req clock rand w).2
  | reachable_event ev w : reachable w → reachable (on_modified ev w)
  | reachable_files fs' w : reachable w → reachable (World fs' (mem w) (journal w)).



End MoreNotions.

(** ** Notions for the selection of a value *)



Global Instance exn_eq_dec : EqDecision exn.
Proof. solve_decision. Defined.

Global Instance outcome_eq_dec {A} `{EqDecision A} : EqDecision (outcome A).
Proof. solve_decision. Defined.




Section SelectionNotions.
Context `{Platform}.

(** The entry cached for a variable under the hash of its file, when there
    is one, holds the lines of the file as it is now: the entry was not read
    from another file with the same digest. *)
Definition entry_in_step (c : cache) (fs : filesystem) (var_name : string) : Prop :=
  ∀ cached values,
    values_cache c !! var_name = Some cached →
    file_hashes c !! var_name
      = Some (get_file_hash (lookup_file fs (VarFile var_name))) →
    (read_var_file fs var_name).1 = Some values →
    cached = values.

End SelectionNotions.




(** The example store after BAR was rewritten to hold the line z, and the
    aliases file to hold the line gs=git status. *)
Definition changed_fs : filesystem :=
  Filesystem
    (Some [("FOO", Regular (ascii_bytes ("one" +:+ chr LF)));
           ("BAR", Regular (ascii_bytes ("z" +:+ chr LF)))])
    (Some (Regular (ascii_bytes ("gs=git status" +:+ chr LF)))).


(** * Properties *)

(** ** Strings *)

Lemma app_cons c s t : String c s +:+ t = String c (s +:+ t).
Proof. reflexivity. Qed.

Lemma app_empty_r s : s +:+ EmptyString = s.
Proof. induction s as [|c s IH]; [done|]. by rewrite app_cons, IH. Qed.

Lemma app_assoc_str s t u : (s +:+ t) +:+ u = s +:+ (t +:+ u).
Proof. induction s as [|c s IH]; [done|]. by rewrite !app_cons, IH. Qed.

Lemma app_truthy s t : truthy t = true → truthy (s +:+ t) = true.
Proof. destruct s; [done|]. by rewrite app_cons. Qed.

(** *** [replace] with a pattern of one character *)

Lemma replace_char_cons c new x s :
  replace (String x s) (chr c) new
  = (if decide (x = c) then new else chr x) +:+ replace s (chr c) new.
Proof.
  unfold replace. cbn [replace_from chr String.prefix].
  destruct (ascii_dec c x) as [->|Hne].
  - rewrite decide_True by done. destruct s; reflexivity.
  - rewrite decide_False by congruence. reflexivity.
Qed.

Lemma replace_char_empty c new : replace EmptyString (chr c) new = EmptyString.
Proof. reflexivity. Qed.

Lemma replace_char_other c new x :
  x ≠ c → replace (chr x) (chr c) new = chr x.
Proof.
  intros Hne. unfold chr at 1. rewrite replace_char_cons, decide_False by done.
  by rewrite replace_char_empty, app_empty_r.
Qed.

Lemma replace_char_app c new s t :
  replace (s +:+ t) (chr c) new = replace s (chr c) new +:+ replace t (chr c) new.
Proof.
  induction s as [|x s IH]; [done|].
  by rewrite app_cons, !replace_char_cons, IH, app_assoc_str.
Qed.

Lemma escape_value_cons c rest :
  escape_value (String c rest) = escape_char c +:+ escape_value rest.
Proof.
  unfold escape_value, escape_char.
  rewrite replace_char_cons, !replace_char_app.
  f_equal.
  repeat case_decide; subst; try done.
  by rewrite !replace_char_other.
Qed.

(** *** [strip] *)

Lemma lstrip_length s : String.length (lstrip s) ≤ String.length s.
Proof.
  induction s as [|c s IH]; simpl; [lia|].
  destruct (isspace c); simpl; lia.
Qed.

Lemma lstrip_head c s : lstrip (String c s) = String c s → isspace c = false.
Proof.
  simpl. destruct (isspace c); [|done].
  intros Heq. pose proof (lstrip_length s) as Hlen.
  rewrite Heq in Hlen. simpl in Hlen. lia.
Qed.

Lemma lstrip_fixed c s : isspace c = false → lstrip (String c s) = String c s.
Proof. intros Hc. simpl. by rewrite Hc. Qed.

Lemma lstrip_idemp s : lstrip (lstrip s) = lstrip s.
Proof.
  induction s as [|c s IH]; [done|].
  simpl. destruct (isspace c) eqn:Hc; [done|]. by apply lstrip_fixed.
Qed.

Lemma rstrip_cons c s :
  rstrip (String c s)
  = if truthy (rstrip s) then String c (rstrip s)
    else if isspace c then EmptyString else chr c.
Proof. simpl. by destruct (rstrip s). Qed.

Lemma rstrip_app s t :
  truthy (rstrip t) = true → rstrip (s +:+ t) = s +:+ rstrip t.
Proof.
  intros Ht. induction s as [|c s IH]; [done|].
  rewrite app_cons, rstrip_cons, IH, app_truthy by done. done.
Qed.

Lemma rstrip_char c : isspace c = false → rstrip (chr c) = chr c.
Proof. intros Hc. unfold chr. rewrite rstrip_cons. simpl. by rewrite Hc. Qed.

Lemma rstrip_snoc s c : isspace c = false → rstrip (s +:+ chr c) = s +:+ chr c.
Proof. intros Hc. rewrite rstrip_app; rewrite rstrip_char by done; done. Qed.

Lemma rstrip_idemp s : rstrip (rstrip s) = rstrip s.
Proof.
  induction s as [|c s IH]; [done|].
  rewrite rstrip_cons. destruct (truthy (rstrip s)) eqn:Hs.
  - rewrite rstrip_cons, IH, Hs. done.
  - destruct (isspace c) eqn:Hc; [done|]. by apply rstrip_char.
Qed.

Lemma lstrip_rstrip s : lstrip s = s → lstrip (rstrip s) = rstrip s.
Proof.
  destruct s as [|c s]; [done|].
  intros Hc%lstrip_head. rewrite rstrip_cons.
  destruct (truthy (rstrip s)); [by apply lstrip_fixed|].
  rewrite Hc. by apply lstrip_fixed.
Qed.

Lemma strip_idemp s : strip (strip s) = strip s.
Proof.
  unfold strip. rewrite lstrip_rstrip by apply lstrip_idemp.
  apply rstrip_idemp.
Qed.

Lemma strip_rstrip_fixed t : strip t = t → rstrip t = t.
Proof. intros <-. unfold strip. apply rstrip_idemp. Qed.

Lemma strip_fixed_app s t :
  lstrip s = s → truthy s = true → strip t = t → truthy t = true →
  strip (s +:+ t) = s +:+ t.
Proof.
  intros Hs Hs' Ht Ht'. destruct s as [|c s]; [done|].
  unfold strip. rewrite app_cons, lstrip_fixed by by eapply lstrip_head.
  rewrite <-app_cons.
  rewrite rstrip_app; rewrite (strip_rstrip_fixed t) by done; done.
Qed.

Lemma strip_wrapped a m z :
  isspace a = false → isspace z = false →
  strip (String a (m +:+ chr z)) = String a (m +:+ chr z).
Proof.
  intros Ha Hz. unfold strip. rewrite lstrip_fixed by done.
  rewrite <-app_cons. by apply rstrip_snoc.
Qed.

(** *** [startswith], [endswith] and [split_once] *)

Lemma startswith_app p s : startswith (p +:+ s) p = true.
Proof.
  unfold startswith. induction p as [|c p IH]; [by destruct s|].
  rewrite app_cons. simpl. by destruct (ascii_dec c c).
Qed.

Lemma startswith_cons c s : startswith (String c s) (chr c) = true.
Proof. apply (startswith_app (chr c)). Qed.

Lemma startswith_char s c : startswith s (chr c) = true → ∃ s', s = String c s'.
Proof.
  destruct s as [|a s]; [done|]. unfold startswith, chr. simpl.
  destruct (ascii_dec c a) as [->|]; [eauto|done].
Qed.

Lemma endswith_unfold s p :
  endswith s p
  = if decide (s = p) then true
    else match s with EmptyString => false | String _ s' => endswith s' p end.
Proof. by destruct s. Qed.

Lemma endswith_snoc s p : endswith (s +:+ p) p = true.
Proof.
  induction s as [|c s IH]; rewrite endswith_unfold; case_decide; done.
Qed.

Lemma endswith_char s c : endswith s (chr c) = true → ∃ s', s = s' +:+ chr c.
Proof.
  induction s as [|a s IH]; rewrite endswith_unfold; case_decide as Heq; try done.
  - intros _. by exists EmptyString.
  - intros [s' ->]%IH. by exists (String a s').
Qed.

Lemma split_once_first sep before after :
  in_str sep before = false →
  split_once sep (before +:+ String sep after) = Some (before, after).
Proof.
  induction before as [|c s IH]; simpl.
  - intros _. by rewrite decide_True.
  - case_decide; [done|]. intros Hs. by rewrite IH.
Qed.

Lemma split_once_absent sep s : in_str sep s = false → split_once sep s = None.
Proof.
  induction s as [|c s IH]; [done|]. simpl.
  case_decide; [done|]. intros Hs. by rewrite IH.
Qed.

(** *** The quoting test of the alias formatter *)

Lemma quoted_wrapped q inner :
  q = squote ∨ q = dquote → quoted (String q (inner +:+ chr q)) = true.
Proof.
  intros Hq. unfold quoted.
  rewrite <-!app_cons.
  destruct Hq as [->| ->].
  - by rewrite endswith_snoc, app_cons, startswith_cons.
  - rewrite (endswith_snoc _ (chr dquote)), app_cons, (startswith_cons dquote).
    by rewrite orb_true_r.
Qed.

Lemma quoted_inv v :
  quoted v = true →
  ∃ q, (q = squote ∨ q = dquote) ∧
       (v = chr q ∨ ∃ inner, v = String q (inner +:+ chr q)).
Proof.
  unfold quoted. intros Hq.
  assert (∃ q, (q = squote ∨ q = dquote) ∧ startswith v (chr q) = true
               ∧ endswith v (chr q) = true) as (q & Hq' & Hs & He).
  { apply orb_true_iff in Hq as [[??]%andb_true_iff|[??]%andb_true_iff]; eauto 6. }
  exists q. split; [done|].
  apply endswith_char in He as [s' ->].
  destruct s' as [|a s']; [by left|right].
  apply startswith_char in Hs as [s'' Hs]. rewrite app_cons in Hs.
  injection Hs as -> _. eauto.
Qed.

Lemma quoted_last v :
  quoted v = true → ∃ s' q, v = s' +:+ chr q ∧ isspace q = false.
Proof.
  intros (q & Hq & Hv)%quoted_inv.
  assert (isspace q = false) by (by destruct Hq as [->| ->]).
  destruct Hv as [->|[inner ->]].
  - by exists EmptyString, q.
  - exists (String q inner), q. by rewrite app_cons.
Qed.

(** *** The alias formatter *)

Lemma format_alias_prefix line : startswith (format_alias line) "alias " = true.
Proof.
  unfold format_alias.
  destruct (startswith line "alias ") eqn:Hs; [done|].
  destruct (split_once "=" line) as [[before after]|];
    [case_match|]; apply startswith_app.
Qed.

Lemma format_alias_passthrough line :
  startswith line "alias " = true → format_alias line = line.
Proof. intros Hs. unfold format_alias. by rewrite Hs. Qed.

Lemma format_alias_stripped line :
  strip line = line → truthy line = true →
  strip (format_alias line) = format_alias line ∧ truthy (format_alias line) = true.
Proof.
  intros Hl Hl'. unfold format_alias.
  destruct (startswith line "alias ") eqn:Hs; [done|].
  destruct (split_once "=" line) as [[before after]|].
  - fold (quoted (strip after)). destruct (quoted (strip after)) eqn:Hq.
    + apply quoted_last in Hq as (s' & q & -> & Hq). split; [|done].
      rewrite <-!app_assoc_str. apply (strip_wrapped "a"); done.
    + split; [|done].
      change "'" with (chr squote) at 2 4. rewrite <-!app_assoc_str.
      apply (strip_wrapped "a"); done.
  - rewrite Hl. split; [|done]. by apply strip_fixed_app.
Qed.

Lemma nonblank_lines_stripped raw :
  Forall (λ line, strip line = line ∧ truthy line = true) (nonblank_lines raw).
Proof.
  unfold nonblank_lines. apply Forall_fmap, Forall_forall.
  intros line [Hline _]%list_elem_of_filter. simpl.
  by rewrite strip_idemp.
Qed.

Lemma nonblank_lines_fixed lines :
  Forall (λ line, strip line = line ∧ truthy line = true) lines →
  nonblank_lines lines = lines.
Proof.
  unfold nonblank_lines. induction 1 as [|line lines [Hs Ht] _ IH]; [done|].
  rewrite filter_cons_True by by rewrite Hs.
  rewrite fmap_cons. by rewrite Hs, IH.
Qed.



(** ** The order of [sorted] *)

Global Instance item_le_trans : Transitive item_le.
Proof.
  intros a b c [Hab Hab'] [Hbc Hbc']. split; [by etrans|].
  intros Hac.
  assert (a.1 = b.1) as Heq.
  { apply (anti_symm String.le); [done|]. by rewrite Hac. }
  etrans; [by apply Hab'|]. apply Hbc'. congruence.
Qed.

Global Instance item_le_total : Total item_le.
Proof.
  intros a b. unfold item_le.
  destruct (decide (a.1 = b.1)) as [Heq|Hne].
  - destruct (total String.le a.2 b.2); [left|right]; by rewrite Heq.
  - destruct (total String.le a.1 b.1); [left|right]; (split; [done|congruence]).
Qed.


(** ** Lines and line breaks *)

Lemma in_str_app c s t : in_str c (s +:+ t) = in_str c s || in_str c t.
Proof.
  induction s as [|a s IH]; [done|]. rewrite app_cons. simpl.
  by case_decide.
Qed.

Lemma in_str_lstrip c s : in_str c (lstrip s) = true → in_str c s = true.
Proof.
  induction s as [|a s IH]; [done|]. simpl.
  destruct (isspace a); [|done].
  intros Hs%IH. by case_decide.
Qed.

Lemma in_str_rstrip c s : in_str c (rstrip s) = true → in_str c s = true.
Proof.
  induction s as [|a s IH]; [done|]. rewrite rstrip_cons.
  destruct (truthy (rstrip s)).
  - simpl. case_decide; [done|]. apply IH.
  - destruct (isspace a); [done|]. simpl. by case_decide.
Qed.

Lemma in_str_strip c s : in_str c (strip s) = true → in_str c s = true.
Proof. intros Hs%in_str_rstrip. by apply in_str_lstrip. Qed.

Lemma in_str_strip_false c s : in_str c s = false → in_str c (strip s) = false.
Proof.
  intros Hs. destruct (in_str c (strip s)) eqn:Hc; [|done].
  apply in_str_strip in Hc. congruence.
Qed.

Lemma rstrip_snoc_space s c : isspace c = true → rstrip (s +:+ chr c) = rstrip s.
Proof.
  intros Hc. induction s as [|a s IH].
  - simpl. by rewrite Hc.
  - by rewrite app_cons, !rstrip_cons, IH.
Qed.

Lemma lstrip_app s t :
  lstrip (s +:+ t) = if truthy (lstrip s) then lstrip s +:+ t else lstrip t.
Proof.
  induction s as [|a s IH]; [done|]. rewrite app_cons. simpl.
  by destruct (isspace a).
Qed.

Lemma strip_snoc_space s c : isspace c = true → strip (s +:+ chr c) = strip s.
Proof.
  intros Hc. unfold strip. rewrite lstrip_app.
  destruct (lstrip s) as [|a s'] eqn:Hs; cbn [truthy].
  - simpl. by rewrite Hc.
  - by apply rstrip_snoc_space.
Qed.

Lemma one_line_strip s : one_line s → one_line (strip s).
Proof. intros [??]. split; by apply in_str_strip_false. Qed.

(** What [readlines] yields: lines without a line break inside, each with
    or without a line feed at its end. *)
Lemma readlines_lines text :
  Forall (λ line, ∃ content, (line = content ∨ line = content +:+ chr LF)
                             ∧ one_line content) (readlines text).
Proof.
  assert (∀ content, one_line content →
            ∃ content', (chr LF = content' ∨ chr LF = content' +:+ chr LF)
                        ∧ one_line content') as Hlf.
  { intros _ _. exists EmptyString. split; [by right|done]. }
  induction text as [|c rest IH]; simpl; [constructor|].
  case_decide as Hc.
  { constructor; [|done]. by apply (Hlf EmptyString). }
  case_decide as Hc'.
  { destruct rest as [|c' rest'].
    - constructor; [|constructor]. by apply (Hlf EmptyString).
    - case_decide as Hc''.
      + constructor; [by apply (Hlf EmptyString)|].
        simpl in IH. rewrite decide_True in IH by done.
        by apply Forall_cons in IH as [_ ?].
      + constructor; [by apply (Hlf EmptyString)|done]. }
  assert (one_line (chr c)) as Hone.
  { split; simpl; by rewrite decide_False. }
  destruct (readlines rest) as [|l ls].
  - constructor; [|constructor]. exists (chr c). by split; [left|].
  - apply Forall_cons in IH as [(content & Hl & Hcontent) Hls].
    constructor; [|done]. exists (String c content). split.
    + destruct Hl as [-> | ->]; [by left|by right].
    + destruct Hcontent as [H1 H2]. split; simpl; by rewrite decide_False.
Qed.

Lemma nonblank_lines_values text :
  Forall (λ v, truthy v = true ∧ strip v = v ∧ one_line v)
         (nonblank_lines (readlines text)).
Proof.
  pose proof (nonblank_lines_stripped (readlines text)) as Hs.
  pose proof (readlines_lines text) as Hl.
  unfold nonblank_lines in *.
  rewrite Forall_fmap in Hs. rewrite Forall_fmap.
  rewrite Forall_forall in Hs, Hl. apply Forall_forall.
  intros line Hin. destruct (Hs line Hin) as [? ?].
  apply list_elem_of_filter in Hin as [_ Hin].
  destruct (Hl line Hin) as (content & Hc & Hone).
  simpl in *. split; [done|]. split; [done|].
  destruct Hc as [-> | ->]; [by apply one_line_strip|].
  rewrite strip_snoc_space by done. by apply one_line_strip.
Qed.

(** ** More on the escaping and on the alias formatter *)

Lemma escape_char_shape c :
  (escape_char c = chr c ∧ c ≠ backslash ∧ c ≠ dquote ∧ c ≠ dollar)
  ∨ (escape_char c = String backslash (chr c)
     ∧ (c = backslash ∨ c = dquote ∨ c = dollar)).
Proof.
  unfold escape_char. repeat case_decide; subst; auto 10.
Qed.

Lemma escape_value_injective_aux v1 v2 :
  escape_value v1 = escape_value v2 → v1 = v2.
Proof.
  revert v2. induction v1 as [|c1 r1 IH]; intros [|c2 r2].
  - done.
  - rewrite escape_value_cons.
    destruct (escape_char_shape c2) as [[-> _]|[-> _]]; discriminate.
  - rewrite escape_value_cons.
    destruct (escape_char_shape c1) as [[-> _]|[-> _]]; discriminate.
  - rewrite !escape_value_cons.
    destruct (escape_char_shape c1) as [[-> (?&?&?)]|[-> ?]],
             (escape_char_shape c2) as [[-> (?&?&?)]|[-> ?]];
      unfold chr; rewrite !app_cons; simpl.
    + intros [= -> ?%IH]. by subst.
    + intros [= ? ?]. by subst.
    + intros [= ? ?]. by subst.
    + intros [= -> ?%IH]. by subst.
Qed.

Lemma escape_value_in_str c v :
  c ≠ backslash → in_str c (escape_value v) = in_str c v.
Proof.
  intros Hc. induction v as [|a r IH]; [done|].
  rewrite escape_value_cons, in_str_app, IH.
  destruct (escape_char_shape a) as [[-> _]|[-> _]]; simpl.
  - by case_decide.
  - rewrite (decide_False (P := backslash = c)) by done. by case_decide.
Qed.

Lemma escape_value_plain v :
  in_str backslash v = false → in_str dquote v = false → in_str dollar v = false →
  escape_value v = v.
Proof.
  induction v as [|a r IH]; [done|]. simpl.
  repeat case_decide; try done. intros ???.
  rewrite escape_value_cons, IH by done.
  unfold escape_char. by rewrite !decide_False by done.
Qed.

Lemma split_once_inv sep s before after :
  split_once sep s = Some (before, after) →
  s = before +:+ String sep after ∧ in_str sep before = false.
Proof.
  revert before. induction s as [|c s IH]; intros before; [done|]. simpl.
  case_decide as Hc.
  - intros [= <- <-]. by subst.
  - destruct (split_once sep s) as [[b a]|]; [|done].
    intros [= <- <-]. destruct (IH b eq_refl) as [-> Hb].
    split; [done|]. simpl. by rewrite decide_False.
Qed.

Lemma format_alias_one_line line : one_line line → one_line (format_alias line).
Proof.
  intros Hline. unfold format_alias.
  destruct (startswith line "alias "); [done|].
  destruct (split_once "=" line) as [[before after]|] eqn:Hsplit.
  - apply split_once_inv in Hsplit as [-> _].
    destruct Hline as [H1 H2]. rewrite in_str_app in H1, H2.
    simpl in H1, H2.
    apply orb_false_iff in H1 as [??], H2 as [??].
    case_match; split; rewrite !in_str_app;
      repeat (rewrite in_str_strip_false by done); done.
  - destruct Hline. split; rewrite in_str_app, in_str_strip_false by done; done.
Qed.

Lemma format_aliases_lines text :
  Forall (λ a, startswith a "alias " = true ∧ truthy a = true
               ∧ strip a = a ∧ one_line a)
         (format_aliases (readlines text)).
Proof.
  unfold format_aliases. apply Forall_fmap.
  eapply Forall_impl; [apply nonblank_lines_values|].
  intros line (Ht & Hs & Hone). simpl.
  destruct (format_alias_stripped line Hs Ht) as [??].
  split; [apply format_alias_prefix|]. split; [done|]. split; [done|].
  by apply format_alias_one_line.
Qed.



(** *** White space around a value *)












(** *** Counting draws *)




(** *** Lines of white space *)




(** ** The cache and the file store *)

Section ServerFacts.
Context `{Platform}.

Lemma read_var_file_Some fs var_name values :
  (read_var_file fs var_name).1 = Some values ↔
  ∃ data text, lookup_file fs (VarFile var_name) = Some (Regular data)
    ∧ utf8_decode data = Some text
    ∧ nonblank_lines (readlines text) = values ∧ values ≠ [].
Proof.
  unfold read_var_file. split.
  - destruct (lookup_file fs (VarFile var_name)) as [[|data|]|]; simpl; try done.
    destruct (utf8_decode data) as [text|] eqn:Hd; simpl; [|done].
    destruct (nonblank_lines (readlines text)) eqn:Hl; simpl; [done|].
    intros [= <-]. eauto 10.
  - intros (data & text & -> & Hd & Hl & Hne). simpl. rewrite Hd. simpl.
    rewrite Hl. by destruct values.
Qed.

Lemma yields_nothing_read fs var_name :
  yields_nothing fs var_name → (read_var_file fs var_name).1 = None.
Proof.
  unfold read_var_file. intros [->|(data & text & -> & Hd & Hl)]; [done|].
  simpl. by rewrite Hd; simpl; rewrite Hl.
Qed.

(** What a re-read leaves behind. *)
Lemma refresh_spec var_name current_time current_hash w :
  refresh var_name current_time current_hash w
  = ((read_var_file (fs w) var_name).1,
     World (fs w)
       (match (read_var_file (fs w) var_name).1 with
        | Some values => store_entry var_name values current_hash current_time (mem w)
        | None => mem w
        end)
       ((if (read_var_file (fs w) var_name).2
         then [LogError (VarFile var_name)] else [])
        ++ ReadVarFile var_name :: journal w)).
Proof.
  unfold refresh. simpl.
  by destruct (read_var_file (fs w) var_name) as [[values|] [|]].
Qed.

Lemma entry_valid_dec c var_name current_hash current_time :
  Decision (entry_valid c var_name current_hash current_time).
Proof.
  unfold entry_valid.
  destruct (Qlt_le_dec
              (current_time - default 0%Q (cache_timestamps c !! var_name))
              CACHE_TTL) as [Hlt|Hle].
  - apply and_dec; [apply _|]. apply and_dec; [apply _|by left].
  - right. intros (_ & _ & Hlt). by apply Qle_not_lt in Hle.
Qed.

Lemma current_values_hit var_name current_time w :
  entry_valid (mem w) var_name
    (get_file_hash (lookup_file (fs w) (VarFile var_name))) current_time →
  current_values var_name current_time w
  = (values_cache (mem w) !! var_name, record (HashFile (VarFile var_name)) w).
Proof.
  intros ([cached Hc] & Hh & Hlt). unfold current_values. simpl.
  rewrite Hc, Hh. rewrite decide_True by done.
  by destruct (Qlt_le_dec _ _) as [|Hle%Qle_not_lt].
Qed.

Lemma current_values_miss var_name current_time w :
  ¬ entry_valid (mem w) var_name
    (get_file_hash (lookup_file (fs w) (VarFile var_name))) current_time →
  current_values var_name current_time w
  = refresh var_name current_time
      (get_file_hash (lookup_file (fs w) (VarFile var_name)))
      (record (HashFile (VarFile var_name)) w).
Proof.
  intros Hn. unfold current_values. simpl.
  destruct (values_cache (mem w) !! var_name) as [cached|] eqn:Hc; [|done].
  destruct (file_hashes (mem w) !! var_name) as [h|] eqn:Hh; [|done].
  case_decide as Heq; [|done]. subst h.
  destruct (Qlt_le_dec _ _) as [Hlt|]; [|done].
  destruct Hn. by split; [eexists|].
Qed.

(** The two ways through lines 110 to 136, side by side. *)
Lemma current_values_cases var_name current_time w :
  let current_hash := get_file_hash (lookup_file (fs w) (VarFile var_name)) in
  (entry_valid (mem w) var_name current_hash current_time
   ∧ current_values var_name current_time w
     = (values_cache (mem w) !! var_name, record (HashFile (VarFile var_name)) w))
  ∨ (¬ entry_valid (mem w) var_name current_hash current_time
     ∧ current_values var_name current_time w
       = ((read_var_file (fs w) var_name).1,
          World (fs w)
            (match (read_var_file (fs w) var_name).1 with
             | Some values =>
                 store_entry var_name values current_hash current_time (mem w)
             | None => mem w
             end)
            ((if (read_var_file (fs w) var_name).2
              then [LogError (VarFile var_name)] else [])
             ++ ReadVarFile var_name :: HashFile (VarFile var_name) :: journal w))).
Proof.
  intros current_hash.
  destruct (entry_valid_dec (mem w) var_name current_hash current_time) as [Hv|Hn].
  - left. split; [done|]. by apply current_values_hit.
  - right. split; [done|].
    by rewrite (current_values_miss _ _ _ Hn), refresh_spec.
Qed.

Lemma get_var_value_unfold var_name current_time draw w :
  get_var_value var_name current_time draw w
  = (match (current_values var_name current_time w).1 with
     | None => Return None
     | Some values => outcome_map Some (select_value values draw)
     end, (current_values var_name current_time w).2).
Proof.
  unfold get_var_value. destruct (current_values _ _ _) as [[values|] w']; done.
Qed.

(** *** The invariant *)

Lemma empty_cache_coherent : cache_coherent empty_cache.
Proof. intros var_name values. simpl. by rewrite lookup_empty. Qed.

Lemma current_values_coherent var_name current_time w :
  cache_coherent (mem w) →
  cache_coherent (mem (current_values var_name current_time w).2).
Proof.
  intros Hc.
  destruct (current_values_cases var_name current_time w) as [[_ ->]|[_ ->]];
    [done|].
  cbn [snd mem].
  destruct (read_var_file (fs w) var_name).1 as [fresh|] eqn:Hr; [|done].
  apply read_var_file_Some in Hr as (data & text & Hl & Hd & Hv & Hne).
  rewrite Hl. intros name values. simpl.
  destruct (decide (var_name = name)) as [<-|Hneq].
  - rewrite !lookup_insert_eq. intros [= <-]. split; [done|].
    intros stored_hash [= <-]. eauto.
  - rewrite !lookup_insert_ne by done. apply Hc.
Qed.

Lemma current_values_nonempty var_name current_time w values :
  cache_coherent (mem w) →
  (current_values var_name current_time w).1 = Some values → values ≠ [].
Proof.
  intros Hc.
  destruct (current_values_cases var_name current_time w) as [[_ ->]|[_ ->]];
    simpl.
  - intros Hl. by apply Hc in Hl as [? _].
  - intros Hr. by apply read_var_file_Some in Hr as (_ & _ & _ & _ & _ & ?).
Qed.


(** A call for a name the cache does not know. *)
Lemma get_var_value_cold var_name current_time draw w values failed :
  values_cache (mem w) !! var_name = None →
  read_var_file (fs w) var_name = (Some values, failed) →
  ∃ w', get_var_value var_name current_time draw w
        = (outcome_map Some (select_value values draw), w')
    ∧ fs w' = fs w
    ∧ mem w' = store_entry var_name values
                 (get_file_hash (lookup_file (fs w) (VarFile var_name)))
                 current_time (mem w).
Proof.
  intros Hc Hr. rewrite get_var_value_unfold.
  destruct (current_values_cases var_name current_time w)
    as [[([? Hv] & _) _]|[_ ->]]; [congruence|].
  simpl. rewrite Hr. simpl. eauto.
Qed.

(** *** The selection *)

Lemma select_value_many values draw :
  1 < length values →
  ∃ v, select_value values draw = Return v
       ∧ values !! (draw mod length values) = Some v.
Proof.
  intros Hlen. unfold select_value, random_choice.
  rewrite (proj2 (Nat.ltb_lt _ _) Hlen).
  destruct (lookup_lt_is_Some_2 values (draw mod length values)) as [v Hv].
  { apply Nat.mod_upper_bound. lia. }
  exists v. by rewrite Hv.
Qed.

Lemma select_value_nonempty values draw :
  values ≠ [] → ∃ v, select_value values draw = Return v ∧ v ∈ values.
Proof.
  intros Hne. destruct values as [|v0 [|v1 values]]; [done|..].
  - exists v0. split; [done|]. apply list_elem_of_here.
  - destruct (select_value_many (v0 :: v1 :: values) draw) as (v & Hs & Hl);
      [simpl; lia|].
    exists v. split; [done|]. by eapply list_elem_of_lookup_2.
Qed.

Lemma get_var_value_returns var_name current_time draw w :
  cache_coherent (mem w) →
  ∃ r, (get_var_value var_name current_time draw w).1 = Return r.
Proof.
  intros Hc. rewrite get_var_value_unfold. simpl.
  destruct (current_values var_name current_time w).1 as [values|] eqn:Hv; [|eauto].
  apply current_values_nonempty in Hv; [|done].
  destruct (select_value_nonempty values draw Hv) as (v & -> & _). simpl. eauto.
Qed.

Lemma get_var_value_coherent var_name current_time draw w :
  cache_coherent (mem w) →
  cache_coherent (mem (get_var_value var_name current_time draw w).2).
Proof. rewrite get_var_value_unfold. apply current_values_coherent. Qed.

(** The files a call touches are those of its variable. *)
Lemma get_var_value_journal var_name current_time draw w name :
  HashFile (VarFile name)
    ∈ journal (get_var_value var_name current_time draw w).2 →
  name = var_name ∨ HashFile (VarFile name) ∈ journal w.
Proof.
  rewrite get_var_value_unfold. cbn [snd].
  destruct (current_values_cases var_name current_time w) as [[_ ->]|[_ ->]];
    cbn [snd journal record].
  - intros [[= ->]| ?]%elem_of_cons; [by left|by right].
  - rewrite elem_of_app, !elem_of_cons.
    intros [Hlog|[?|[Heq|?]]]; [|done|left; by injection Heq|by right].
    destruct (read_var_file (fs w) var_name).2.
    + by apply list_elem_of_singleton in Hlog.
    + by apply elem_of_nil in Hlog.
Qed.

(** *** The loop of [load_all_vars] *)

Lemma load_vars_loop_keys entries k clock rand vars_dict w result :
  (load_vars_loop entries k clock rand vars_dict w).1 = Return result →
  ∀ name, is_Some (result !! name) →
    is_Some (vars_dict !! name) ∨ visible entries name.
Proof.
  revert k vars_dict w.
  induction entries as [|[name' n] entries IH]; intros k vars_dict w; simpl.
  - intros [= <-] name. by left.
  - assert (∀ name, visible entries name → visible ((name', n) :: entries) name)
      as Hmono.
    { intros name (n' & Hin & ? & ?). exists n'.
      split; [by apply list_elem_of_further|done]. }
    destruct (is_file n && negb (startswith name' ".")) eqn:Hvis.
    + apply andb_true_iff in Hvis as [Hfile Hdot%negb_true_iff].
      destruct (get_var_value name' (clock k) (rand k) w) as [[[value|]|e] w'];
        [| |done].
      * intros Hloop name Hname.
        destruct (IH _ _ _ Hloop name Hname) as [Hin|Hin]; [|by auto].
        destruct (decide (name' = name)) as [<-|Hne].
        -- right. exists n. split; [apply list_elem_of_here|done].
        -- left. by rewrite lookup_insert_ne in Hin.
      * intros Hloop name Hname.
        destruct (IH _ _ _ Hloop name Hname); auto.
    + intros Hloop name Hname.
      destruct (IH _ _ _ Hloop name Hname); auto.
Qed.

Lemma load_vars_loop_journal entries k clock rand vars_dict w name :
  HashFile (VarFile name)
    ∈ journal (load_vars_loop entries k clock rand vars_dict w).2 →
  HashFile (VarFile name) ∈ journal w ∨ visible entries name.
Proof.
  revert k vars_dict w.
  induction entries as [|[name' n] entries IH]; intros k vars_dict w; simpl.
  - by left.
  - assert (∀ name, visible entries name → visible ((name', n) :: entries) name)
      as Hmono.
    { intros name0 (n' & Hin & ? & ?). exists n'.
      split; [by apply list_elem_of_further|done]. }
    destruct (is_file n && negb (startswith name' ".")) eqn:Hvis.
    + apply andb_true_iff in Hvis as [Hfile Hdot%negb_true_iff].
      assert (HashFile (VarFile name)
                ∈ journal (get_var_value name' (clock k) (rand k) w).2 →
              HashFile (VarFile name) ∈ journal w
              ∨ visible ((name', n) :: entries) name) as Hstep.
      { intros [->|?]%get_var_value_journal; [right|by left].
        exists n. split; [apply list_elem_of_here|done]. }
      destruct (get_var_value name' (clock k) (rand k) w) as [[[value|]|e] w'];
        simpl in Hstep; [| |done].
      * intros [?|?]%IH; auto.
      * intros [?|?]%IH; auto.
    + intros [?|?]%IH; auto.
Qed.

Lemma load_vars_loop_returns entries k clock rand vars_dict w :
  cache_coherent (mem w) →
  (∃ result, (load_vars_loop entries k clock rand vars_dict w).1 = Return result)
  ∧ cache_coherent (mem (load_vars_loop entries k clock rand vars_dict w).2).
Proof.
  revert k vars_dict w.
  induction entries as [|[name n] entries IH]; intros k vars_dict w Hc; simpl.
  - eauto.
  - destruct (is_file n && negb (startswith name ".")); [|by apply IH].
    pose proof (get_var_value_returns name (clock k) (rand k) w Hc) as [r Hr].
    pose proof (get_var_value_coherent name (clock k) (rand k) w Hc) as Hc'.
    destruct (get_var_value name (clock k) (rand k) w) as [o w'].
    simpl in Hr, Hc'. subst o. destruct r; by apply IH.
Qed.

(** *** The watcher *)

Lemma on_modified_coherent ev w :
  cache_coherent (mem w) → cache_coherent (mem (on_modified ev w)).
Proof.
  intros Hc. unfold on_modified.
  destruct (is_directory ev); [done|].
  destruct (startswith _ _).
  - intros name values. simpl.
    destruct (decide (path_stem (resolve (src_path ev)) = name)) as [<-|Hne].
    + by rewrite lookup_delete_eq.
    + rewrite !lookup_delete_ne by done. apply Hc.
  - by case_decide.
Qed.

(** *** The invariant holds in every state the server reaches *)

Lemma load_all_vars_coherent clock rand w :
  cache_coherent (mem w) → cache_coherent (mem (load_all_vars clock rand w).2).
Proof.
  intros Hc. unfold load_all_vars.
  destruct (vars_dir (fs w)) as [entries|]; [|done].
  by apply load_vars_loop_returns.
Qed.

Lemma load_aliases_coherent w :
  cache_coherent (mem w) → cache_coherent (mem (load_aliases w).2).
Proof.
  intros Hc. unfold load_aliases.
  destruct (lookup_file (fs w) AliasesFile) as [n|]; [|done].
  cbn [record mem].
  destruct (aliases_cache (mem w)); [case_decide; [done|]|];
    by destruct (read_text_lines n).
Qed.

Lemma get_env_vars_coherent token req clock rand w :
  cache_coherent (mem w) →
  cache_coherent (mem (get_env_vars token req clock rand w).2).
Proof.
  intros Hc. unfold get_env_vars, validate_token.
  case_decide; [done|]. cbn [negb].
  pose proof (load_all_vars_coherent clock rand w Hc) as Hc'.
  destruct (load_all_vars clock rand w) as [[vars_dict|e] w1]; [|done].
  pose proof (load_aliases_coherent w1 Hc') as Hc''.
  by destruct (load_aliases w1) as [aliases w2].
Qed.

(** X1.  A modification inside the variables directory drops the values and the
    hash cached under the stem of the file name, and nothing cached under
    another name. *)
Lemma on_modified_variable ev w :
  is_directory ev = false →
  startswith (resolve (src_path ev)) (resolve VARS_DIR) = true →
  let var_name := path_stem (resolve (src_path ev)) in
  values_cache (mem (on_modified ev w)) !! var_name = None
  ∧ file_hashes (mem (on_modified ev w)) !! var_name = None
  ∧ ∀ other, other ≠ var_name →
      values_cache (mem (on_modified ev w)) !! other = values_cache (mem w) !! other
      ∧ file_hashes (mem (on_modified ev w)) !! other = file_hashes (mem w) !! other.
Proof.
  intros Hdir Hvars. unfold on_modified. rewrite Hdir, Hvars. simpl.
  rewrite !lookup_delete_eq. split; [done|]. split; [done|].
  intros other Hne. by rewrite !lookup_delete_ne.
Qed.

(** X2.  A modification of the aliases file clears the alias cache and its
    hash, and leaves the cached variables alone. *)
Lemma on_modified_aliases ev w :
  is_directory ev = false →
  startswith (resolve (src_path ev)) (resolve VARS_DIR) = false →
  resolve (src_path ev) = resolve ALIASES_FILE →
  aliases_cache (mem (on_modified ev w)) = None
  ∧ aliases_hash (mem (on_modified ev w)) = None
  ∧ values_cache (mem (on_modified ev w)) = values_cache (mem w)
  ∧ file_hashes (mem (on_modified ev w)) = file_hashes (mem w).
Proof.
  intros Hdir Hvars Halias. unfold on_modified. rewrite Hdir, Hvars.
  by rewrite decide_True.
Qed.

End ServerFacts.

(** ** More on the cache, the loader and the watcher *)

Section MoreServerFacts.
Context `{Platform}.

(** *** Frame *)
Lemma current_values_frame var_name current_time w :
  let w' := (current_values var_name current_time w).2 in
  fs w' = fs w
  ∧ aliases_cache (mem w') = aliases_cache (mem w)
  ∧ aliases_hash (mem w') = aliases_hash (mem w)
  ∧ (∃ evs, journal w' = evs ++ journal w)
  ∧ ∀ other, other ≠ var_name →
      values_cache (mem w') !! other = values_cache (mem w) !! other
      ∧ file_hashes (mem w') !! other = file_hashes (mem w) !! other
      ∧ cache_timestamps (mem w') !! other = cache_timestamps (mem w) !! other.
Proof.
  intros w'. subst w'.
  destruct (current_values_cases var_name current_time w) as [[_ ->]|[_ ->]];
    cbn [snd fs mem journal record].
  - repeat split; try done. by exists [HashFile (VarFile var_name)].
  - destruct (read_var_file (fs w) var_name) as [[values|] failed];
      cbn [fst snd store_entry values_cache file_hashes cache_timestamps
           aliases_cache aliases_hash].
    + repeat split; try done.
      * eexists (_ ++ [_; _]). by rewrite <-app_assoc.
      * by rewrite lookup_insert_ne.
      * by rewrite lookup_insert_ne.
      * by rewrite lookup_insert_ne.
    + repeat split; try done.
      eexists (_ ++ [_; _]). by rewrite <-app_assoc.
Qed.


Lemma get_var_value_aliases_coherent var_name current_time draw w :
  aliases_coherent (mem w) →
  aliases_coherent (mem (get_var_value var_name current_time draw w).2).
Proof.
  rewrite get_var_value_unfold. cbn [snd].
  destruct (current_values_frame var_name current_time w) as (_ & Hc & Hh & _).
  unfold aliases_coherent. by rewrite Hc, Hh.
Qed.





Lemma load_aliases_aliases_coherent w :
  aliases_coherent (mem w) → aliases_coherent (mem (load_aliases w).2).
Proof.
  intros Hc. unfold load_aliases.
  destruct (lookup_file (fs w) AliasesFile) as [n|]; [|done].
  cbn [record mem].
  destruct (aliases_cache (mem w)); [case_decide; [done|]|];
    (destruct n as [|data|]; try done; simpl;
     destruct (utf8_decode data) as [text|] eqn:Hd; simpl; [|done];
     intros cached [= <-]; simpl; eauto).
Qed.


(** *** The watcher *)
Lemma on_modified_aliases_coherent ev w :
  aliases_coherent (mem w) → aliases_coherent (mem (on_modified ev w)).
Proof.
  intros Hc. unfold on_modified.
  destruct (is_directory ev); [done|].
  destruct (startswith _ _); [done|].
  by case_decide.
Qed.

(** *** Every state the server reaches *)
Lemma load_vars_loop_aliases_coherent entries k clock rand vars_dict w :
  aliases_coherent (mem w) →
  aliases_coherent (mem (load_vars_loop entries k clock rand vars_dict w).2).
Proof.
  revert k vars_dict w.
  induction entries as [|[name n] entries IH]; intros k vars_dict w Hc; simpl;
    [done|].
  destruct (is_file n && negb (startswith name ".")); [|by apply IH].
  pose proof (get_var_value_aliases_coherent name (clock k) (rand k) w Hc) as Hc'.
  destruct (get_var_value name (clock k) (rand k) w) as [[[v|]|e] w1];
    cbn [snd] in *; [by apply IH..|done].
Qed.

Lemma get_env_vars_invariants token req clock rand w :
  cache_coherent (mem w) ∧ aliases_coherent (mem w) →
  cache_coherent (mem (get_env_vars token req clock rand w).2)
  ∧ aliases_coherent (mem (get_env_vars token req clock rand w).2).
Proof.
  intros [Hc Ha]. split; [by apply get_env_vars_coherent|].
  unfold get_env_vars, validate_token.
  case_decide; [done|]. cbn [negb].
  assert (aliases_coherent (mem (load_all_vars clock rand w).2)) as Ha'.
  { unfold load_all_vars. destruct (vars_dir (fs w)); [|done].
    by apply load_vars_loop_aliases_coherent. }
  destruct (load_all_vars clock rand w) as [[vars_dict|e] w1]; [|done].
  pose proof (load_aliases_aliases_coherent w1 Ha') as Ha''.
  by destruct (load_aliases w1) as [aliases w2].
Qed.

Lemma reachable_invariants w :
  reachable w → cache_coherent (mem w) ∧ aliases_coherent (mem w).
Proof.
  induction 1 as [fs0|token req clock rand w _ IH|ev w _ [IHc IHa]|fs' w _ IH].
  - split; [apply empty_cache_coherent|done].
  - by apply get_env_vars_invariants.
  - split; [by apply on_modified_coherent|by apply on_modified_aliases_coherent].
  - done.
Qed.

Lemma load_aliases_lines_aux w :
  aliases_coherent (mem w) →
  Forall (λ a, startswith a "alias " = true ∧ truthy a = true
               ∧ strip a = a ∧ one_line a) (load_aliases w).1.
Proof.
  intros Hc. unfold load_aliases.
  destruct (lookup_file (fs w) AliasesFile) as [n|]; [|constructor].
  cbn [record mem].
  assert (Forall (λ a, startswith a "alias " = true ∧ truthy a = true
                       ∧ strip a = a ∧ one_line a)
            (default [] (format_aliases <$> read_text_lines n))) as Hfresh.
  { destruct n as [|data|]; try constructor. simpl.
    destruct (utf8_decode data) as [text|]; [|constructor].
    apply format_aliases_lines. }
  destruct (aliases_cache (mem w)) as [cached|] eqn:Hcached.
  - case_decide.
    + simpl. destruct (Hc cached Hcached) as (data & text & _ & _ & <-).
      apply format_aliases_lines.
    + by destruct (read_text_lines n).
  - by destruct (read_text_lines n).
Qed.

Lemma load_aliases_hit w cached n :
  lookup_file (fs w) AliasesFile = Some n →
  aliases_cache (mem w) = Some cached →
  aliases_hash (mem w) = get_file_hash (Some n) →
  load_aliases w = (cached, record (HashFile AliasesFile) w).
Proof.
  intros Hfile Hc Hh. unfold load_aliases. rewrite Hfile.
  cbn [record mem]. rewrite Hc. by rewrite decide_True.
Qed.

Lemma load_aliases_after w data text :
  lookup_file (fs w) AliasesFile = Some (Regular data) →
  utf8_decode data = Some text →
  fs (load_aliases w).2 = fs w
  ∧ aliases_cache (mem (load_aliases w).2) = Some (load_aliases w).1
  ∧ aliases_hash (mem (load_aliases w).2) = Some (md5 data).
Proof.
  intros Hfile Hd. unfold load_aliases. rewrite Hfile.
  cbn [record mem read_text_lines]. rewrite Hd.
  destruct (aliases_cache (mem w)) as [cached|] eqn:Hcached;
    [case_decide as Hh|]; done.
Qed.

Lemma get_client_ip_forwarded req forwarded :
  x_forwarded_for req = Some forwarded → truthy forwarded = true →
  get_client_ip req
  = strip (match split_once "," forwarded with
           | Some (first, _) => first
           | None => forwarded
           end).
Proof. intros Hf Ht. unfold get_client_ip, header. by rewrite Hf, Ht. Qed.

Lemma split_once_none_absent sep s : split_once sep s = None → in_str sep s = false.
Proof.
  induction s as [|c s IH]; [done|]. simpl. case_decide; [done|].
  destruct (split_once sep s) as [[]|]; [done|]. by intros _; apply IH.
Qed.


End MoreServerFacts.

(** ** The selection of a value *)

Section SelectionFacts.
Context `{Platform}.



Lemma coherent_entry_in_step c fs var_name :
  Inj (=) (=) md5 → cache_coherent c → entry_in_step c fs var_name.
Proof.
  intros Hinj Hc cached values Hcached Hh Hr.
  apply read_var_file_Some in Hr as (data & text & Hl & Hd & Hv & Hne).
  destruct (Hc _ _ Hcached) as [_ Hs].
  destruct (Hs _ Hh) as (data' & text' & Hm & Hd' & Hv').
  rewrite Hl in Hm. simpl in Hm. injection Hm as Hm. apply Hinj in Hm as <-.
  congruence.
Qed.



Lemma get_var_value_candidates var_name current_time draw w values :
  (current_values var_name current_time w).1 = Some values →
  (get_var_value var_name current_time draw w).1
  = outcome_map Some (select_value values draw).
Proof. intros Hv. rewrite get_var_value_unfold. cbn [fst]. by rewrite Hv. Qed.




(** What the code does with two files of the same digest: a variable is
    cached from one file, the file is replaced by the other, and a call
    within the time to live selects from the lines of the first file. *)
Lemma get_var_value_collision var_name fs1 fs2 data1 data2 values
    t0 d0 t1 d1 c journal0 :
  values_cache c !! var_name = None →
  lookup_file fs1 (VarFile var_name) = Some (Regular data1) →
  (read_var_file fs1 var_name).1 = Some values →
  lookup_file fs2 (VarFile var_name) = Some (Regular data2) →
  md5 data1 = md5 data2 →
  (t1 - t0 < CACHE_TTL)%Q →
  let w1 := (get_var_value var_name t0 d0 (World fs1 c journal0)).2 in
  (get_var_value var_name t1 d1 (World fs2 (mem w1) (journal w1))).1
  = outcome_map Some (select_value values d1).
Proof.
  intros Hc Hf1 Hr Hf2 Hmd5 Hlt w1.
  destruct (read_var_file fs1 var_name) as [o failed] eqn:Hread.
  simpl in Hr. subst o.
  destruct (get_var_value_cold var_name t0 d0 (World fs1 c journal0)
              values failed Hc Hread) as (w' & Hw' & _ & Hmem).
  assert (w1 = w') as -> by (unfold w1; by rewrite Hw').
  cbn [fs mem] in Hmem.
  apply get_var_value_candidates.
  rewrite current_values_hit; cbn [fst fs mem]; rewrite Hmem;
    unfold entry_valid, store_entry;
    cbn [values_cache file_hashes cache_timestamps];
    rewrite ?lookup_insert_eq; [done|].
  rewrite Hf1, Hf2. cbn [default get_file_hash]. by rewrite Hmd5.
Qed.

End SelectionFacts.

(** ** The properties of the specification *)

(** C1.  The export escaping replaces the backslash by two backslashes, then
    the double quote by a backslash and a double quote, then the dollar sign
    by a backslash and a dollar sign, each over the whole string.  The result
    is that of one pass from left to right over the original value that
    escapes each character on its own, so a backslash put in by an escape is
    never escaped again.  The value a, double quote, b, backslash, c, dollar,
    d, of the variable V gives the line spelled out below. *)
Theorem escape_value_single_pass :
  (∀ value, escape_value value = escape_single_pass value)
  ∧ export_command "V" ("a" +:+ chr dquote +:+ "b\c$d")
    = "export V=" +:+ chr dquote
      +:+ "a\" +:+ chr dquote +:+ "b\\c\$d"
      +:+ chr dquote.
Proof.
  split; [|reflexivity].
  induction value as [|c rest IH]; [done|].
  by rewrite escape_value_cons, IH.
Qed.

(** C3, as amended.  For a line that does not start with the alias keyword:
    when the line has an equals sign, it is split at the first one and both
    parts are stripped of surrounding white space, giving the name and the
    value; a value wrapped in a pair of single quotes or in a pair of double
    quotes is kept as it is, and a value that is neither wrapped so nor a
    lone quote character is put between single quotes.  When a stripped line
    has no equals sign, the whole line is the name and there is no value.
    The three lines of the specification give the three results it states. *)
Theorem format_alias_cases :
  (∀ line, startswith line "alias " = false →
     (∀ before after,
        line = before +:+ "=" +:+ after → in_str "=" before = false →
        let alias_name := strip before in
        let alias_value := strip after in
        (wrapped_in_quotes alias_value →
           format_alias line = "alias " +:+ alias_name +:+ "=" +:+ alias_value)
        ∧ (¬ wrapped_in_quotes alias_value →
           alias_value ≠ chr squote → alias_value ≠ chr dquote →
           format_alias line
           = "alias " +:+ alias_name +:+ "='" +:+ alias_value +:+ "'"))
     ∧ (in_str "=" line = false → strip line = line →
          format_alias line = "alias " +:+ line))
  ∧ format_alias "FOO=bar" = "alias FOO='bar'"
  ∧ format_alias ("FOO=" +:+ chr dquote +:+ "bar" +:+ chr dquote)
    = "alias FOO=" +:+ chr dquote +:+ "bar" +:+ chr dquote
  ∧ format_alias "justname" = "alias justname".
Proof.
  split; [|done].
  intros line Hs. unfold format_alias. rewrite Hs. split.
  - intros before after -> Hb.
    change ("=" +:+ after) with (String "=" after).
    rewrite (split_once_first _ _ _ Hb).
    set (alias_name := strip before). set (alias_value := strip after).
    fold (quoted alias_value). split.
    + intros (q & inner & Hq & ->). by rewrite quoted_wrapped.
    + intros Hw Hsq Hdq.
      destruct (quoted alias_value) eqn:Hq; [|done].
      apply quoted_inv in Hq as (q & Hq & [Hl|[inner Hi]]).
      * destruct Hq as [-> | ->]; done.
      * destruct Hw. by exists q, inner.
  - intros He Hl. by rewrite (split_once_absent _ _ He), Hl.
Qed.

(** C4.  The transformation of one line is idempotent: applied to its own
    result it gives that result again, for every line.  A line that starts
    with the alias keyword passes through unchanged.  So does the formatter
    as a whole: run over the lines it produced, it produces them again. *)
Theorem format_alias_idempotent :
  (∀ line, format_alias (format_alias line) = format_alias line)
  ∧ (∀ line, startswith line "alias " = true → format_alias line = line)
  ∧ (∀ raw, format_aliases (format_aliases raw) = format_aliases raw)
  ∧ format_alias "alias X='y'" = "alias X='y'".
Proof.
  assert (∀ line, format_alias (format_alias line) = format_alias line) as Hidem.
  { intros line. apply format_alias_passthrough, format_alias_prefix. }
  split; [done|]. split; [apply format_alias_passthrough|]. split; [|done].
  intros raw. unfold format_aliases at 1.
  rewrite nonblank_lines_fixed.
  - unfold format_aliases. rewrite <-list_fmap_compose.
    apply list_fmap_ext. intros _ line _. apply Hidem.
  - unfold format_aliases. apply Forall_fmap.
    eapply Forall_impl; [apply nonblank_lines_stripped|].
    intros line [??]. by apply format_alias_stripped.
Qed.

Section Claims.
Context `{Platform}.

(** C5.  In [get_var_value] the cached list of values is used again exactly
    when the name has a cached list and a stored hash, the stored hash is
    the hash of the file computed in this call, and the age of the entry is
    strictly below the time to live of one second: then only the hash is
    taken, the file is not read again and the cache stays as it is.  When
    the condition fails the file is read again, and when that read yields
    values the entry becomes these values, this hash and this time. *)
Theorem get_var_value_cache_policy var_name current_time draw w :
  let c := mem w in
  let current_hash := get_file_hash (lookup_file (fs w) (VarFile var_name)) in
  let valid := entry_valid c var_name current_hash current_time in
  let values := (current_values var_name current_time w).1 in
  let w' := (get_var_value var_name current_time draw w).2 in
  (get_var_value var_name current_time draw w).1
    = match values with
      | None => Return None
      | Some values => outcome_map Some (select_value values draw)
      end
  ∧ (valid ↔ journal w' = HashFile (VarFile var_name) :: journal w)
  ∧ (valid → is_Some values ∧ values = values_cache c !! var_name ∧ mem w' = c)
  ∧ (¬ valid →
       (∃ evs, journal w'
               = evs ++ ReadVarFile var_name
                     :: HashFile (VarFile var_name) :: journal w)
       ∧ values = (read_var_file (fs w) var_name).1
       ∧ ∀ fresh, (read_var_file (fs w) var_name).1 = Some fresh →
           mem w' = Cache (<[var_name := fresh]> (values_cache c))
                          (<[var_name := current_time]> (cache_timestamps c))
                          (<[var_name := current_hash]> (file_hashes c))
                          (aliases_cache c) (aliases_hash c)).
Proof.
  intros c current_hash valid values w'. subst w' values valid c current_hash.
  rewrite get_var_value_unfold. cbn [fst snd]. split; [done|].
  destruct (current_values_cases var_name current_time w) as [[Hv ->]|[Hn ->]];
    cbn [fst snd journal mem record].
  - split; [done|]. split; [|done]. intros _. by destruct Hv as (? & _).
  - split; [|split; [done|]].
    + split; [done|]. intros Hj.
      apply (f_equal length) in Hj. rewrite length_app in Hj. simpl in Hj. lia.
    + intros _. split; [eauto|]. split; [done|].
      intros fresh ->. done.
Qed.

(** C6, as amended.  When [get_var_value] reads the file again and the file
    is gone, or holds no line that is not blank, the call returns no value
    and leaves the cache exactly as it was: an entry the name had before the
    call is still there. *)
Theorem get_var_value_absent_keeps_cache var_name current_time draw w :
  ¬ entry_valid (mem w) var_name
      (get_file_hash (lookup_file (fs w) (VarFile var_name))) current_time →
  yields_nothing (fs w) var_name →
  (get_var_value var_name current_time draw w).1 = Return None
  ∧ mem (get_var_value var_name current_time draw w).2 = mem w
  ∧ fs (get_var_value var_name current_time draw w).2 = fs w
  ∧ ReadVarFile var_name ∈ journal (get_var_value var_name current_time draw w).2.
Proof.
  intros Hn Hy%yields_nothing_read.
  rewrite get_var_value_unfold.
  destruct (current_values_cases var_name current_time w) as [[Hv _]|[_ ->]];
    [done|].
  simpl. rewrite Hy. repeat split; try done.
  apply elem_of_app. right. apply list_elem_of_here.
Qed.


(** C9.  The token is valid exactly when it is equal to the secret.  For a
    token that differs, [get_env_vars] answers with status 200 and the type
    text/plain, and its body is the one echo statement of the warning, on
    one line.  The answer is the same for every file store and cache, no
    file is hashed or read, and the cache is left alone; only the warning is
    logged. *)
Theorem invalid_token_response token req clock rand w :
  ((validate_token token req w).1 = true ↔ token = SECRET_TOKEN)
  ∧ (token ≠ SECRET_TOKEN →
       get_env_vars token req clock rand w
       = (Return (Response 200 "text/plain" [] warning_message),
          record (LogWarning ("Invalid token attempt from " +:+ get_client_ip req)) w))
  ∧ warning_message
    = "echo " +:+ chr dquote
      +:+ "Warning: Invalid sharenv key. Please check your SHARENV_ENDPOINT configuration."
      +:+ chr dquote
  ∧ in_str LF warning_message = false.
Proof.
  split; [|split; [|done]].
  - unfold validate_token. case_decide as Ht; simpl; [naive_solver|].
    split; [|done]. intros _.
    by destruct (decide (token = SECRET_TOKEN)).
  - intros Ht. unfold get_env_vars, validate_token.
    by rewrite decide_True.
Qed.

(** C10.  Every variable [load_all_vars] returns is named after an entry of
    the variables directory that is a regular file and whose name does not
    start with a dot, and these are the only files the call hashes; hidden
    files and subdirectories never become variables.  When the directory
    does not exist, the call creates it and returns the empty mapping.  With
    a coherent cache the call always returns a mapping. *)
Theorem load_all_vars_scope clock rand w :
  (∀ vars_dict, (load_all_vars clock rand w).1 = Return vars_dict →
     ∀ name, is_Some (vars_dict !! name) →
       ∃ entries, vars_dir (fs w) = Some entries ∧ visible entries name)
  ∧ (∀ name, HashFile (VarFile name) ∈ journal (load_all_vars clock rand w).2 →
       HashFile (VarFile name) ∈ journal w
       ∨ ∃ entries, vars_dir (fs w) = Some entries ∧ visible entries name)
  ∧ (vars_dir (fs w) = None →
       load_all_vars clock rand w
       = (Return ∅,
          World (Filesystem (Some []) (aliases_file (fs w))) (mem w)
                (MakeVarsDir :: journal w)))
  ∧ (cache_coherent (mem w) →
       ∃ vars_dict, (load_all_vars clock rand w).1 = Return vars_dict).
Proof.
  unfold load_all_vars. split; [|split; [|split]].
  - intros vars_dict Hload name Hname.
    destruct (vars_dir (fs w)) as [entries|].
    + destruct (load_vars_loop_keys _ _ _ _ _ _ _ Hload name Hname)
        as [Hin|?]; [|by eauto].
      rewrite lookup_empty in Hin. by destruct Hin.
    + simpl in Hload. injection Hload as <-.
      rewrite lookup_empty in Hname. by destruct Hname.
  - intros name. destruct (vars_dir (fs w)) as [entries|].
    + intros [?|?]%load_vars_loop_journal; eauto.
    + simpl. intros [[=]|?]%elem_of_cons. by left.
  - by intros ->.
  - intros Hc. destruct (vars_dir (fs w)) as [entries|]; [|by eauto].
    by apply load_vars_loop_returns.
Qed.

End Claims.

(** ** Further properties of the code *)

(** X15.  The export escaping loses nothing: two values with the same
    escaped form are the same value.  It adds and removes no character other
    than the backslash, so it puts no line break into a value; and a value
    without backslash, double quote and dollar sign is left as it is. *)
Theorem escape_value_injective :
  (∀ v1 v2, escape_value v1 = escape_value v2 → v1 = v2)
  ∧ (∀ c v, c ≠ backslash → in_str c (escape_value v) = in_str c v)
  ∧ (∀ v, in_str backslash v = false → in_str dquote v = false →
          in_str dollar v = false → escape_value v = v).
Proof.
  split; [apply escape_value_injective_aux|].
  split; [intros c v; apply escape_value_in_str|apply escape_value_plain].
Qed.

Section Coverage.
Context `{Platform}.


(** X4.  A call of [get_var_value] for one variable leaves the files, the
    alias cache and everything cached for the other variables as they were,
    and only adds to the journal. *)
Theorem get_var_value_frame var_name current_time draw w :
  let w' := (get_var_value var_name current_time draw w).2 in
  fs w' = fs w
  ∧ aliases_cache (mem w') = aliases_cache (mem w)
  ∧ aliases_hash (mem w') = aliases_hash (mem w)
  ∧ (∃ evs, journal w' = evs ++ journal w)
  ∧ ∀ other, other ≠ var_name →
      values_cache (mem w') !! other = values_cache (mem w) !! other
      ∧ file_hashes (mem w') !! other = file_hashes (mem w) !! other
      ∧ cache_timestamps (mem w') !! other = cache_timestamps (mem w) !! other.
Proof. rewrite get_var_value_unfold. apply current_values_frame. Qed.

(** X5.  When [read_var_file] returns a list, the list is not empty and each
    of its values is not empty, has no white space around it and holds no
    line break. *)
Theorem read_var_file_values fs0 var_name values :
  (read_var_file fs0 var_name).1 = Some values →
  values ≠ []
  ∧ Forall (λ v, truthy v = true ∧ strip v = v ∧ one_line v) values.
Proof.
  intros (data & text & _ & _ & <- & Hne)%read_var_file_Some.
  split; [done|]. apply nonblank_lines_values.
Qed.



(** X8.  With a coherent alias cache, every line [load_aliases] returns
    starts with the alias keyword, is not empty, has no white space around
    it and holds no line break. *)
Theorem load_aliases_lines w :
  aliases_coherent (mem w) →
  Forall (λ a, startswith a "alias " = true ∧ truthy a = true
               ∧ strip a = a ∧ one_line a) (load_aliases w).1.
Proof. apply load_aliases_lines_aux. Qed.

(** X9.  The alias cache has no time to live: once [load_aliases] has run on
    a readable aliases file, a second call on the same files returns the same
    list and only hashes the file, without reading it again. *)
Theorem load_aliases_second_call w data text :
  lookup_file (fs w) AliasesFile = Some (Regular data) →
  utf8_decode data = Some text →
  let w1 := (load_aliases w).2 in
  load_aliases w1 = ((load_aliases w).1, record (HashFile AliasesFile) w1).
Proof.
  intros Hfile Hd w1.
  destruct (load_aliases_after w data text Hfile Hd) as (Hfs & Hc & Hh).
  apply (load_aliases_hit w1 _ (Regular data)); [|done..].
  unfold w1. by rewrite Hfs.
Qed.

(** X10.  After the watcher handled a modification inside the variables
    directory, the next [get_var_value] for the stem of the file name reads
    the file again, whatever the time. *)
Theorem on_modified_forces_reread ev w current_time draw :
  is_directory ev = false →
  startswith (resolve (src_path ev)) (resolve VARS_DIR) = true →
  let var_name := path_stem (resolve (src_path ev)) in
  ∃ evs, journal (get_var_value var_name current_time draw (on_modified ev w)).2
         = evs ++ ReadVarFile var_name :: HashFile (VarFile var_name) :: journal w.
Proof.
  intros Hdir Hvars var_name.
  assert (values_cache (mem (on_modified ev w)) !! var_name = None) as Hvalues.
  { unfold on_modified. rewrite Hdir, Hvars. apply lookup_delete_eq. }
  rewrite get_var_value_unfold. cbn [snd].
  destruct (current_values_cases var_name current_time (on_modified ev w))
    as [[([cached Hc] & _) _]|[_ ->]]; [congruence|].
  cbn [snd journal]. eexists.
  f_equal. f_equal. f_equal. unfold on_modified. rewrite Hdir, Hvars. done.
Qed.

(** X11.  Handling the same event twice is the same as handling it once.
    The watcher never touches the files, the journal or the cached times,
    and it ignores events of directories. *)
Theorem on_modified_idempotent ev w :
  on_modified ev (on_modified ev w) = on_modified ev w
  ∧ fs (on_modified ev w) = fs w
  ∧ journal (on_modified ev w) = journal w
  ∧ cache_timestamps (mem (on_modified ev w)) = cache_timestamps (mem w)
  ∧ (is_directory ev = true → on_modified ev w = w).
Proof.
  unfold on_modified. destruct (is_directory ev); [done|].
  destruct (startswith _ _).
  - cbn. by rewrite !delete_delete_eq.
  - by case_decide.
Qed.

(** X12.  A call that uses the cached values does not renew the entry: its
    time stays the time of the last read, so a call a full time to live
    after that read reads the file again, however recent the last use. *)
Theorem cache_hit_does_not_renew var_name t1 d1 w :
  entry_valid (mem w) var_name
    (get_file_hash (lookup_file (fs w) (VarFile var_name))) t1 →
  let w1 := (get_var_value var_name t1 d1 w).2 in
  cache_timestamps (mem w1) !! var_name = cache_timestamps (mem w) !! var_name
  ∧ ∀ t2 d2,
      (CACHE_TTL <= t2 - default 0%Q (cache_timestamps (mem w) !! var_name))%Q →
      ∃ evs, journal (get_var_value var_name t2 d2 w1).2
             = evs ++ ReadVarFile var_name :: HashFile (VarFile var_name)
                   :: journal w1.
Proof.
  intros Hv w1.
  assert (w1 = record (HashFile (VarFile var_name)) w) as Hw1.
  { unfold w1. rewrite get_var_value_unfold. cbn [snd].
    by rewrite (current_values_hit _ _ _ Hv). }
  rewrite Hw1. split; [done|]. intros t2 d2 Hold.
  rewrite get_var_value_unfold. cbn [snd].
  destruct (current_values_cases var_name t2
              (record (HashFile (VarFile var_name)) w))
    as [[(_ & _ & Hlt) _]|[_ ->]].
  - cbn [mem record] in Hlt. by apply Qle_not_lt in Hold.
  - cbn [snd journal]. eauto.
Qed.

(** X13.  In every state the model reaches, from an empty cache through
    requests, watcher events and changes of the files between two calls,
    every list in the cache of the variables has an entry.  So the selection
    of [get_var_value] finds an entry at the index it uses and raises no
    IndexError: the call returns no value when it has no list to select
    from, and otherwise an entry of that list. *)
Theorem reachable_selection_returns w :
  reachable w →
  (∀ var_name values,
     values_cache (mem w) !! var_name = Some values → values ≠ [])
  ∧ ∀ var_name current_time draw,
      let candidates := (current_values var_name current_time w).1 in
      let result := (get_var_value var_name current_time draw w).1 in
      result ≠ Raise IndexError
      ∧ ((candidates = None ∧ result = Return None)
         ∨ ∃ values v, candidates = Some values ∧ v ∈ values
                       ∧ result = Return (Some v)).
Proof.
  intros [Hc _]%reachable_invariants. split.
  - intros var_name values Hcached. by destruct (Hc _ _ Hcached).
  - intros var_name current_time draw candidates result.
    unfold result, candidates. rewrite get_var_value_unfold. cbn [fst].
    destruct (current_values var_name current_time w).1 as [values|] eqn:Hv.
    + apply current_values_nonempty in Hv; [|done].
      destruct (select_value_nonempty values draw Hv) as (v & -> & Hin).
      split; [done|]. right. eauto.
    + split; [done|]. by left.
Qed.


(** X16.  [get_client_ip] prefers the forwarded-for header: when that
    header is not empty the result is its text before the first comma,
    stripped, so it holds no comma and no white space around it (it may be
    empty), whatever the other sources say.  Without that header the result
    is never empty: it is the real-ip header when that is not empty, else
    the address of the connection when that is not empty, else the word
    unknown. *)
Theorem get_client_ip_precedence req :
  (∀ forwarded, x_forwarded_for req = Some forwarded → truthy forwarded = true →
     (∃ first, get_client_ip req = strip first
        ∧ in_str "," first = false
        ∧ (forwarded = first ∨ ∃ rest, forwarded = first +:+ String "," rest))
     ∧ in_str "," (get_client_ip req) = false
     ∧ strip (get_client_ip req) = get_client_ip req)
  ∧ (header (x_forwarded_for req) = None →
       truthy (get_client_ip req) = true
       ∧ (∀ ip, x_real_ip req = Some ip → truthy ip = true →
            get_client_ip req = ip)
       ∧ (header (x_real_ip req) = None →
            (∀ addr, remote_addr req = Some addr → truthy addr = true →
               get_client_ip req = addr)
            ∧ (header (remote_addr req) = None →
                 get_client_ip req = "unknown"))).
Proof.
  split.
  - intros forwarded Hf Ht. rewrite (get_client_ip_forwarded _ _ Hf Ht).
    assert (∃ first, in_str "," first = false
              ∧ (forwarded = first ∨ ∃ rest, forwarded = first +:+ String "," rest)
              ∧ match split_once "," forwarded with
                | Some (first', _) => first'
                | None => forwarded
                end = first) as (first & Hc & Hshape & ->).
    { destruct (split_once "," forwarded) as [[first rest]|] eqn:Hs.
      - apply split_once_inv in Hs as [-> ?]. exists first. eauto.
      - exists forwarded. split; [by apply split_once_none_absent|by auto]. }
    split; [by eauto|]. split; [by apply in_str_strip_false|apply strip_idemp].
  - unfold get_client_ip. intros ->. unfold header.
    destruct (x_real_ip req) as [ip|]; [destruct (truthy ip) eqn:Hip|];
      (destruct (remote_addr req) as [addr|];
       [destruct (truthy addr) eqn:Haddr|]); cbn [default];
      repeat split; try done; try congruence;
      try (intros ? [= <-]; congruence);
      try (intros ? [= <-] ?; congruence);
      by intros ? [= <-].
Qed.

End Coverage.

(** ** The model at work *)

#[local] Existing Instance example_platform.



(** C3, as the specification states it, fails on the line FOO = bar: the
    line is stripped, has an equals sign and does not start with the alias
    keyword; the text before the first equals sign ends with a blank and the
    text after it starts with one; the formatter strips both and does not
    give the line made of the two parts as they are. *)
Lemma format_alias_trims_around_equals :
  let line := "FOO = bar" in
  strip line = line
  ∧ startswith line "alias " = false
  ∧ split_once "=" line = Some ("FOO ", " bar")
  ∧ ¬ wrapped_in_quotes " bar"
  ∧ format_alias line = "alias FOO='bar'"
  ∧ format_alias line ≠ "alias FOO =' bar'".
Proof.
  repeat split; try done.
  intros (q & inner & Hq & Hv). destruct Hq as [-> | ->]; discriminate Hv.
Qed.

(** The amended C3 on the line FOO = bar, with and without quotes around
    the value. *)
Lemma format_alias_cases_witness :
  format_alias "FOO = bar" = "alias FOO='bar'"
  ∧ format_alias "FOO = 'bar baz'" = "alias FOO='bar baz'".
Proof.
  destruct format_alias_cases as [Hcases _].
  split.
  - apply (proj1 (Hcases "FOO = bar" eq_refl) "FOO " " bar"); try done.
    intros (q & inner & Hq & Hv). destruct Hq as [-> | ->]; discriminate Hv.
  - apply (proj1 (Hcases "FOO = 'bar baz'" eq_refl) "FOO " " 'bar baz'");
      try done.
    exists squote, "bar baz". by split; [left|].
Defined.

(** C6, as the specification states it, fails after a file is deleted: the
    call at time 5 reads again and returns no value, and the values, the
    hash and the time cached for KEY are all still there. *)
Lemma get_var_value_keeps_stale_entry :
  let w' := (get_var_value "KEY" 5 0 key_deleted_world).2 in
  (get_var_value "KEY" 5 0 key_deleted_world).1 = Return None
  ∧ journal w' = [ReadVarFile "KEY"; HashFile (VarFile "KEY")]
  ∧ values_cache (mem w') !! "KEY" = Some ["old"]
  ∧ file_hashes (mem w') !! "KEY" = Some (Some ("old" +:+ chr LF))
  ∧ cache_timestamps (mem w') !! "KEY" = Some 0%Q.
Proof. vm_compute. done. Qed.

(** The amended C6 on the same call. *)
Lemma get_var_value_absent_keeps_cache_witness :
  (get_var_value "KEY" 5 0 key_deleted_world).1 = Return None
  ∧ mem (get_var_value "KEY" 5 0 key_deleted_world).2 = mem key_deleted_world
  ∧ fs (get_var_value "KEY" 5 0 key_deleted_world).2 = fs key_deleted_world
  ∧ ReadVarFile "KEY" ∈ journal (get_var_value "KEY" 5 0 key_deleted_world).2.
Proof.
  apply get_var_value_absent_keeps_cache.
  - intros (_ & Hh & _). vm_compute in Hh. discriminate Hh.
  - left. reflexivity.
Defined.

(** C7 fails for a file whose name has a suffix.  [load_all_vars] caches the
    file FOO.txt of the variables directory under its name, FOO.txt; the
    watcher, told that this file was modified, deletes what is cached under
    the stem, FOO; so the values and the hash of FOO.txt stay in the
    cache. *)
Theorem on_modified_misses_suffixed_name :
  let w1 := (load_all_vars (λ _, 0%Q) (λ _, 0) (World suffixed_fs empty_cache [])).2 in
  let ev := FsEvent false "vars/FOO.txt" in
  let w2 := on_modified ev w1 in
  is_directory ev = false
  ∧ startswith (resolve (src_path ev)) (resolve VARS_DIR) = true
  ∧ path_name (resolve (src_path ev)) = "FOO.txt"
  ∧ path_stem (resolve (src_path ev)) = "FOO"
  ∧ values_cache (mem w1) !! "FOO.txt" = Some ["one"]
  ∧ values_cache (mem w2) !! "FOO.txt" = Some ["one"]
  ∧ file_hashes (mem w2) !! "FOO.txt" = Some (Some ("one" +:+ chr LF))
  ∧ mem w2 = mem w1.
Proof. vm_compute. done. Qed.



(** C5 on the example store: half a second after FOO was cached the entry
    is used again; one full second after, the file is read again. *)
Lemma get_var_value_cache_policy_witness :
  let w1 := (get_var_value "FOO" 0 0 example_world).2 in
  journal (get_var_value "FOO" (1 # 2) 0 w1).2
    = HashFile (VarFile "FOO") :: journal w1
  ∧ journal (get_var_value "FOO" 1 0 w1).2
    ≠ HashFile (VarFile "FOO") :: journal w1.
Proof.
  intros w1. split.
  - apply (get_var_value_cache_policy "FOO" (1 # 2) 0 w1).
    split; [by eexists|]. split; reflexivity.
  - intros Hj. apply (get_var_value_cache_policy "FOO" 1 0 w1) in Hj.
    destruct Hj as (_ & _ & Hage). vm_compute in Hage. discriminate Hage.
Defined.

(** C9 on a request with a wrong token. *)
Lemma invalid_token_response_witness :
  get_env_vars "wrong-token" example_request (λ _, 0%Q) (λ _, 0) example_world
  = (Return (Response 200 "text/plain" [] warning_message),
     record (LogWarning "Invalid token attempt from 10.0.0.7") example_world).
Proof.
  by apply (invalid_token_response "wrong-token" example_request).
Defined.

(** C10 on a directory with a hidden file and a subdirectory. *)
Lemma load_all_vars_scope_witness :
  (load_all_vars (λ _, 0%Q) (λ _, 0) (World mixed_fs empty_cache [])).1
    = Return {["FOO" := "one"]}
  ∧ visible [(".env", Regular (ascii_bytes ("secret" +:+ chr LF)));
             ("sub", Directory);
             ("FOO", Regular (ascii_bytes ("one" +:+ chr LF)))] "FOO".
Proof.
  assert ((load_all_vars (λ _, 0%Q) (λ _, 0) (World mixed_fs empty_cache [])).1
          = Return {["FOO" := "one"]}) as Hload by (vm_compute; reflexivity).
  split; [done|].
  destruct (proj1 (load_all_vars_scope (λ _, 0%Q) (λ _, 0)
                     (World mixed_fs empty_cache [])) _ Hload "FOO")
    as (entries & [= <-] & Hvis); [|done].
  by rewrite lookup_singleton_eq.
Defined.

(** X1 on the file FOO, whose name has no suffix. *)
Lemma on_modified_variable_witness :
  let w1 := (load_all_vars (λ _, 0%Q) (λ _, 0) example_world).2 in
  let w2 := on_modified (FsEvent false "vars/FOO") w1 in
  values_cache (mem w1) !! "FOO" = Some ["one"]
  ∧ values_cache (mem w2) !! "FOO" = None
  ∧ file_hashes (mem w2) !! "FOO" = None.
Proof.
  intros w1 w2. split; [by vm_compute|].
  destruct (on_modified_variable (FsEvent false "vars/FOO") w1)
    as (Hvalues & Hhashes & _); [reflexivity..|].
  by split.
Defined.

(** X2 on the example store once the aliases are cached. *)
Lemma on_modified_aliases_witness :
  let w1 := (load_aliases example_world).2 in
  let w2 := on_modified (FsEvent false "aliases") w1 in
  aliases_cache (mem w1) = Some ["alias ll='ls -la'"]
  ∧ aliases_cache (mem w2) = None
  ∧ aliases_hash (mem w2) = None.
Proof.
  intros w1 w2. split; [by vm_compute|].
  destruct (on_modified_aliases (FsEvent false "aliases") w1)
    as (Hcache & Hhash & _); [reflexivity..|].
  by split.
Defined.

(** ** The further properties at work *)

Lemma example_world_reachable : reachable example_world.
Proof. apply reachable_start. Qed.

Lemma example_aliases_coherent : aliases_coherent (mem example_world).
Proof. by intros cached. Qed.


(** X5 on the file BAR of the example store. *)
Lemma read_var_file_values_witness :
  (read_var_file example_fs "BAR").1 = Some ["x"; "y"]
  ∧ Forall (λ v, truthy v = true ∧ strip v = v ∧ one_line v) ["x"; "y"].
Proof.
  split; [reflexivity|].
  by apply (read_var_file_values example_fs "BAR").
Defined.



(** X8 on the example store. *)
Lemma load_aliases_lines_witness :
  Forall (λ a, startswith a "alias " = true ∧ truthy a = true
               ∧ strip a = a ∧ one_line a) (load_aliases example_world).1.
Proof. apply load_aliases_lines, example_aliases_coherent. Defined.

(** X9 on the example store: the second call hashes and does not read. *)
Lemma load_aliases_second_call_witness :
  let w1 := (load_aliases example_world).2 in
  load_aliases w1
  = (["alias ll='ls -la'"], record (HashFile AliasesFile) w1).
Proof.
  intros w1.
  etrans; [by apply (load_aliases_second_call example_world
                       (ascii_bytes ("ll=ls -la" +:+ chr LF))
                       ("ll=ls -la" +:+ chr LF))|].
  by vm_compute.
Defined.

(** X10 on the file FOO: cached at time 0, reported modified, and read again
    at time one half, within the time to live. *)
Lemma on_modified_forces_reread_witness :
  let w1 := (get_var_value "FOO" 0 0 example_world).2 in
  let w2 := on_modified (FsEvent false "vars/FOO") w1 in
  ∃ evs, journal (get_var_value "FOO" (1 # 2) 0 w2).2
         = evs ++ ReadVarFile "FOO" :: HashFile (VarFile "FOO") :: journal w1.
Proof.
  intros w1 w2.
  exact (on_modified_forces_reread (FsEvent false "vars/FOO") w1 (1 # 2) 0
           eq_refl eq_refl).
Defined.

(** X12 on the file FOO: cached at time 0 and used at time 0.9, it is read
    again at time 1, a tenth of a second after its last use. *)
Lemma cache_hit_does_not_renew_witness :
  let w0 := (get_var_value "FOO" 0 0 example_world).2 in
  let w1 := (get_var_value "FOO" (9 # 10) 0 w0).2 in
  ∃ evs, journal (get_var_value "FOO" 1 0 w1).2
         = evs ++ ReadVarFile "FOO" :: HashFile (VarFile "FOO") :: journal w1.
Proof.
  intros w0 w1.
  assert (entry_valid (mem w0) "FOO"
            (get_file_hash (lookup_file (fs w0) (VarFile "FOO"))) (9 # 10))
    as Hvalid.
  { split; [by eexists|]. split; reflexivity. }
  destruct (cache_hit_does_not_renew "FOO" (9 # 10) 0 w0 Hvalid) as [_ Hagain].
  apply Hagain. by vm_compute.
Defined.

(** X13 on the state after a request with the secret token, which caches
    FOO and BAR, and a change of the files that rewrites BAR. *)
Lemma reachable_selection_returns_witness :
  let w1 := (get_env_vars "0123456789abcdef" example_request
               (λ _, 0%Q) (λ _, 0) example_world).2 in
  let w2 := World changed_fs (mem w1) (journal w1) in
  values_cache (mem w2) !! "BAR" = Some ["x"; "y"]
  ∧ ∃ values v, (current_values "BAR" (1 # 2) w2).1 = Some values
                ∧ v ∈ values
                ∧ (get_var_value "BAR" (1 # 2) 1 w2).1 = Return (Some v).
Proof.
  intros w1 w2. split; [by vm_compute|].
  assert (reachable w2) as Hreach.
  { apply (reachable_files changed_fs w1), reachable_request,
      example_world_reachable. }
  destruct (reachable_selection_returns w2 Hreach) as [_ Hreturns].
  destruct (Hreturns "BAR" (1 # 2) 1) as [_ [[Hnone _]|Hsome]]; [|exact Hsome].
  vm_compute in Hnone. discriminate Hnone.
Defined.


(** X16 on a request that came through two proxies. *)
Lemma get_client_ip_precedence_witness :
  get_client_ip (Request (Some " 203.0.113.9 , 10.0.0.1") (Some "10.0.0.2")
                   (Some "10.0.0.3"))
  = "203.0.113.9".
Proof.
  destruct (get_client_ip_precedence
              (Request (Some " 203.0.113.9 , 10.0.0.1") (Some "10.0.0.2")
                 (Some "10.0.0.3"))) as [Hforwarded _].
  destruct (Hforwarded " 203.0.113.9 , 10.0.0.1" eq_refl eq_refl)
    as [(first & -> & Hcomma & [<-|[rest Hrest]]) _]; [done|].
  assert (first = " 203.0.113.9 ") as ->; [|done].
  assert (split_once "," (first +:+ String "," rest)
          = Some (" 203.0.113.9 ", " 10.0.0.1")) as Hsplit
    by (by rewrite <-Hrest).
  rewrite split_once_first in Hsplit by done. by injection Hsplit.
Defined.
